(** * dropbox-demo-tape: [src/modules/utils.js] and the player

    A shallow embedding of the utility module of the player (file naming,
    classification by extension, purge of inactive files, download headers,
    listing normalisation) and of the methods of the [Player] component,
    with the properties the specification states and further properties of
    the code. *)

From Stdlib Require Import NArith List Lia.
From Stdlib Require Import Strings.String Strings.Ascii.
From stdpp Require Import base decidable option list gmap.

Local Open Scope N_scope.

(** ** JavaScript strings

    A JavaScript string is a sequence of UTF-16 code units.  The em-dash
    the source splits on (U+2014) and the characters the header transform
    escapes are single code units above the ASCII range, so strings are
    modelled as lists of code units and not as byte strings. *)

Module JsString.

Definition jsstr := list N.

(** An ASCII literal as a JavaScript string. *)
Definition js (s : string) : jsstr := N_of_ascii <$> list_ascii_of_string s.

(** [s.split(sep)] for a separator of one code unit (every separator of
    the source is one: '-', the em-dash, ' ' and '.').  The result is never
    empty: [''.split('-')] is [['']]. *)
Fixpoint split (sep : N) (s : jsstr) : list jsstr :=
  match s with
  | [] => [[]]
  | c :: s' =>
      if decide (c = sep) then [] :: split sep s'
      else match split sep s' with
           | [] => [[c]]
           | w :: ws => (c :: w) :: ws
           end
  end.

(** [parts.join(sep)]. *)
Fixpoint join (sep : jsstr) (parts : list jsstr) : jsstr :=
  match parts with
  | [] => []
  | [p] => p
  | p :: ps => p ++ sep ++ join sep ps
  end.

(** [parts.pop()] on a fresh array, read for its return value only. *)
Definition pop (parts : list jsstr) : option jsstr := last parts.

(** ECMAScript WhiteSpace and LineTerminator code units, the ones
    [String.prototype.trim] strips. *)
Definition whiteSpace : list N :=
  [ 9; 10; 11; 12; 13; 32; 160; 5760;
    8192; 8193; 8194; 8195; 8196; 8197; 8198; 8199; 8200; 8201; 8202;
    8232; 8233; 8239; 8287; 12288; 65279 ].

Definition isWhiteSpace (c : N) : bool := bool_decide (c ∈ whiteSpace).

Fixpoint trimStart (s : jsstr) : jsstr :=
  match s with
  | [] => []
  | c :: s' => if isWhiteSpace c then trimStart s' else s
  end.

Definition trimEnd (s : jsstr) : jsstr := reverse (trimStart (reverse s)).

(** [s.trim()]. *)
Definition trim (s : jsstr) : jsstr := trimEnd (trimStart s).

(** [s.slice(-k)]: the last [k] code units, the whole string when it is
    shorter. *)
Definition sliceLast (k : nat) (s : jsstr) : jsstr := drop (length s - k) s.

Definition hexDigit (d : N) : N := if d <? 10 then 48 + d else 87 + d.

Fixpoint hexDigits (fuel : nat) (n : N) (acc : jsstr) : jsstr :=
  match fuel with
  | O => acc
  | S fuel' =>
      if n =? 0 then acc
      else hexDigits fuel' (n / 16) (hexDigit (n mod 16) :: acc)
  end.

(** [n.toString(16)]: lower-case hexadecimal without padding.  A number
    has no more hexadecimal digits than bits, which bounds the loop. *)
Definition toString16 (n : N) : jsstr :=
  if n =? 0 then [48] else hexDigits (N.to_nat (N.size n)) n [].

(** [s.replace(/[\u007f-\uffff]/g, f)]: without the [u] flag the class
    matches one code unit at a time. *)
Definition inClass_7f_ffff (c : N) : bool := (127 <=? c) && (c <=? 65535).

Definition replace_7f_ffff (f : N → jsstr) (s : jsstr) : jsstr :=
  c ← s; if inClass_7f_ffff c then f c else [c].

(** *** [JSON.stringify] of a string (QuoteJSONString) *)

Definition isLeadingSurrogate (c : N) : bool := (55296 <=? c) && (c <=? 56319).
Definition isTrailingSurrogate (c : N) : bool := (56320 <=? c) && (c <=? 57343).

(** UnicodeEscape: backslash, [u] and four lower-case hexadecimal digits. *)
Definition UnicodeEscape (c : N) : jsstr :=
  [92; 117; hexDigit ((c / 4096) mod 16); hexDigit ((c / 256) mod 16);
   hexDigit ((c / 16) mod 16); hexDigit (c mod 16)].

(** One code unit that is not part of a surrogate pair. *)
Definition quoteUnit (c : N) : jsstr :=
  if decide (c = 8) then [92; 98]
  else if decide (c = 9) then [92; 116]
  else if decide (c = 10) then [92; 110]
  else if decide (c = 12) then [92; 102]
  else if decide (c = 13) then [92; 114]
  else if decide (c = 34) then [92; 34]
  else if decide (c = 92) then [92; 92]
  else if (c <? 32) || isLeadingSurrogate c || isTrailingSurrogate c
       then UnicodeEscape c
  else [c].

(** The body between the quotes: a leading surrogate followed by a
    trailing one is a code point of its own and is copied; every other
    code unit goes through [quoteUnit]. *)
Fixpoint quoteUnits (s : jsstr) : jsstr :=
  match s with
  | [] => []
  | c :: s' =>
      match s' with
      | d :: s'' =>
          if isLeadingSurrogate c && isTrailingSurrogate d
          then c :: d :: quoteUnits s''
          else quoteUnit c ++ quoteUnits s'
      | [] => quoteUnit c
      end
  end.

Definition QuoteJSONString (s : jsstr) : jsstr := [34] ++ quoteUnits s ++ [34].

End JsString.

Import JsString.

(** ** Data model: the objects [utils.js] reads *)

(** A track of a playlist.  [rest] stands for the own properties the
    module never reads (an object spread copies them along). *)
Module Track.
Record t := mk {
  id : jsstr;
  rev : jsstr;
  name : option jsstr;
  downloadStatus : option Z;
  rest : list (jsstr * jsstr)
}.
End Track.

Module Playlist.
Record meta_t := mkMeta { name : jsstr; path_display : jsstr }.
Record data_t := mkData { title : jsstr; tracks : list Track.t }.
Record t := mk { meta : meta_t; data : data_t }.
End Playlist.

(** The Redux state: [state.playlists.data] and
    [state.auth.user.params.access_token]. *)
Module AppState.
Record t := mk { playlists_data : list Playlist.t; access_token : jsstr }.
End AppState.

(** A Dropbox listing entry; [sharing_info] and its [modified_by] are
    optional. *)
Module Entry.
Record sharing_t := mkSharing { modified_by : option jsstr }.
Record t := mk {
  tag : jsstr;
  name : option jsstr;
  path_display : jsstr;
  sharing_info : option sharing_t
}.
End Entry.

(** The argument of the Dropbox download call: [{ path: remote }]. *)
Module ApiArg.
Record t := mk { path : jsstr }.
End ApiArg.

(** What [transformFile] returns: the entry's own properties ([spread])
    and the derived ones. *)
Module File.
Record t := mk {
  spread : Entry.t;
  isAudioFile : bool;
  isFolder : bool;
  isPlaylist : bool;
  path : jsstr;
  type : jsstr;
  user : option jsstr
}.
End File.

(** ** The device: [expo-file-system] and the console

    [disk] lists the files by URI with their content.  A directory is
    there through the files below it: the URI of a directory followed by
    ['/'] starts the URI of each of them, so a directory holds files and
    directories to any depth (an empty directory holds nothing and is left
    out).  [root] is the URI of the app's directory without the ['/']
    that [FileSystem.documentDirectory] ends with.  [unreadable] are the
    directories whose listing fails and [locked] the URIs whose deletion
    fails.  [console] collects what [console.error] prints. *)

Inductive Promise (A : Type) : Type :=
  | Resolved (value : A)
  | Rejected (error : jsstr).
Arguments Resolved {A} value.
Arguments Rejected {A} error.

Module World.
Record t := mk {
  root : jsstr;
  disk : list (jsstr * jsstr);
  unreadable : list jsstr;
  locked : list jsstr;
  console : list jsstr
}.

(** [FileSystem.documentDirectory]: the URI of the app's directory [root],
    with the ['/'] it ends with. *)
Definition documentDirectory (w : t) : jsstr := root w ++ [47].
Arguments documentDirectory : simpl never.

Definition uris (w : t) : list jsstr := (disk w).*1.

Definition with_disk (d : list (jsstr * jsstr)) (w : t) : t :=
  mk (root w) d (unreadable w) (locked w) (console w).

Definition with_console (c : list jsstr) (w : t) : t :=
  mk (root w) (disk w) (unreadable w) (locked w) c.
End World.

Module FileSystem.

Fixpoint stripPrefix (p s : jsstr) : option jsstr :=
  match p, s with
  | [], _ => Some s
  | a :: p', b :: s' => if decide (a = b) then stripPrefix p' s' else None
  | _ :: _, [] => None
  end.

(** [uri] is [target] itself or lies below the directory [target]. *)
Definition atOrBelow (target uri : jsstr) : bool :=
  bool_decide (uri = target)
  || bool_decide (is_Some (stripPrefix (target ++ [47]) uri)).

(** Something is at [uri]: a file, or a directory with a file below it. *)
Definition present (uri : jsstr) (w : World.t) : bool :=
  existsb (atOrBelow uri) (World.uris w).

(** What follows a name in a URI: nothing, or a path that goes on. *)
Definition goesOn (rest : jsstr) : Prop := rest = [] ∨ ∃ r, rest = 47 :: r.

(** What comes before the first ['/']. *)
Fixpoint firstSegment (s : jsstr) : jsstr :=
  match s with
  | [] => []
  | c :: s' => if decide (c = 47) then [] else c :: firstSegment s'
  end.

(** The entry of [dir] that [uri] is or lies below: the name of a file of
    [dir], or of a directory of [dir] for a URI further down. *)
Definition entryName (dir uri : jsstr) : option jsstr :=
  n ← stripPrefix dir uri;
  if decide (firstSegment n = []) then None else Some (firstSegment n).

(** The names of the files and of the directories of [dir], each once;
    [dir] ends with ['/']. *)
Definition readDirectoryAsync (dir : jsstr) (w : World.t) : Promise (list jsstr) :=
  if bool_decide (dir ∈ World.unreadable w) then Rejected (js "ERR_FILESYSTEM")
  else Resolved (remove_dups (omap (entryName dir) (World.uris w))).

(** Deleting a file removes it; deleting a directory removes everything
    below it.  The promise rejects when nothing is at [uri] (the code
    passes no [idempotent] option) or when the device refuses. *)
Definition deleteAsync (uri : jsstr) (w : World.t) : World.t * Promise unit :=
  if present uri w && negb (bool_decide (uri ∈ World.locked w))
  then (World.with_disk (filter (λ e, atOrBelow uri e.1 = false) (World.disk w)) w,
        Resolved ())
  else (w, Rejected (js "ERR_FILESYSTEM")).

Record info_t := mkInfo { exists_ : bool }.

(** [getInfoAsync] rejects a [null] URI; [exists] is true of a file and of
    a directory. *)
Definition getInfoAsync (uri : option jsstr) (w : World.t) : Promise info_t :=
  match uri with
  | Some u => Resolved (mkInfo (present u w))
  | None => Rejected (js "ERR_FILESYSTEM")
  end.

(** What [createDownloadResumable] returns: the request it will make and
    the callback it will call. *)
Record DownloadResumable (C : Type) := mkDownload {
  url : jsstr;
  fileUri : jsstr;
  Authorization : jsstr;
  Dropbox_API_Arg : jsstr;
  callback : C
}.
Arguments mkDownload {C}.
Arguments url {C}.
Arguments fileUri {C}.
Arguments Authorization {C}.
Arguments Dropbox_API_Arg {C}.
Arguments callback {C}.

Definition createDownloadResumable {C} (url fileUri authorization apiArg : jsstr)
    (progress : C) : DownloadResumable C :=
  mkDownload url fileUri authorization apiArg progress.

End FileSystem.

(** [array.map(f)] for an [f] that acts on the device: the calls are made
    in array order and the results collected. *)
Fixpoint mapWorld {A B} (f : A → World.t → World.t * B) (l : list A) (w : World.t)
    : World.t * list B :=
  match l with
  | [] => (w, [])
  | a :: l' =>
      let '(w1, b) := f a w in
      let '(w2, bs) := mapWorld f l' w1 in
      (w2, b :: bs)
  end.

(** [[...new Set(array)]]: the distinct values in order of first
    insertion. *)
Definition newSet {A} `{EqDecision A} (l : list A) : list A :=
  foldl (λ s x, if bool_decide (x ∈ s) then s else s ++ [x]) [] l.

(** [Boolean(v)] for a string or [undefined]: the empty string and
    [undefined] are falsy. *)
Definition Boolean (v : option jsstr) : bool :=
  match v with
  | Some (_ :: _) => true
  | _ => false
  end.

(** A template literal's [${v}] for a string or [null]. *)
Definition template (v : option jsstr) : jsstr := default (js "null") v.

(** ** [src/modules/utils.js] *)

Definition dropBoxDownloadUrl : jsstr :=
  js "https://content.dropboxapi.com/2/files/download".

(** [path.split('-').join('_').split('—').join('_').split(' ').join('_').trim()] *)
Definition createValidFileURI (path : jsstr) : jsstr :=
  trim (join (js "_") (split 32
         (join (js "_") (split 8212
           (join (js "_") (split 45 path)))))).

(** What [.split(sep).join(u)] does to one code unit. *)
Definition substitute (sep u c : N) : N := if decide (c = sep) then u else c.

(** The three substitutions of [createValidFileURI] on one code unit:
    hyphen, em-dash and space become an underscore. *)
Definition separatorToUnderscore (c : N) : N :=
  if bool_decide (c ∈ [45; 8212; 32]) then 95 else c.

(** [(name = '') => name.split('.').pop()].  [pop] gives [undefined] on
    an empty array only, and [split] never returns one (lemma
    [split_not_nil]): the outer default is never taken. *)
Definition getExtension (name : option jsstr) : jsstr :=
  default [] (pop (split 46 (default [] name))).

Definition getFileName (track : option Track.t) : option jsstr :=
  match track with
  | Some t =>
      Some (createValidFileURI
              (Track.id t ++ js "_" ++ Track.rev t ++ js "."
               ++ getExtension (Track.name t)))
  | None => None
  end.

Definition getFilePath (w : World.t) (track : option Track.t) : option jsstr :=
  match track with
  | Some _ => Some (World.documentDirectory w ++ template (getFileName track))
  | None => None
  end.

Definition audioExtensions : list jsstr := [js "mp3"; js "m4a"; js "ovw"; js "wav"].

Definition isAudioFile (name : option jsstr) : bool :=
  bool_decide (getExtension name ∈ audioExtensions).

Definition isPlaylist (name : option jsstr) : bool :=
  bool_decide (getExtension name = js "mix").

Definition isFileOrFolder (entry : Entry.t) : bool :=
  bool_decide (Entry.tag entry ∈ [js "file"; js "folder"]).

Definition isFolderOrAudioFile (entry : Entry.t) : bool :=
  bool_decide (Entry.tag entry = js "folder")
  || (bool_decide (Entry.tag entry = js "file") && isAudioFile (Entry.name entry)).

Definition isFolderOrPlaylist (entry : Entry.t) : bool :=
  bool_decide (Entry.tag entry = js "folder")
  || (bool_decide (Entry.tag entry = js "file") && isPlaylist (Entry.name entry)).

(** [get(entry, 'sharing_info.modified_by')]: [undefined] when a step of
    the path is missing. *)
Definition getModifiedBy (entry : Entry.t) : option jsstr :=
  Entry.sharing_info entry ≫= Entry.modified_by.

Definition getModifiedUsersFromEntries (entries : list Entry.t) : list (option jsstr) :=
  filter (λ v, Boolean v = true) (newSet (getModifiedBy <$> entries)).

Definition transformFile (file : Entry.t) : File.t :=
  {| File.spread := file;
     File.isAudioFile := isAudioFile (Entry.name file);
     File.isFolder := bool_decide (Entry.tag file = js "folder");
     File.isPlaylist := isPlaylist (Entry.name file);
     File.path := Entry.path_display file;
     File.type := Entry.tag file;
     File.user := getModifiedBy file |}.

Definition getAccessToken (state : AppState.t) : jsstr := AppState.access_token state.

(** [JSON.stringify(header)] for the argument object of the download
    call, [{ path: remote }]. *)
Definition JSON_stringify (header : ApiArg.t) : jsstr :=
  js "{" ++ QuoteJSONString (js "path") ++ js ":"
  ++ QuoteJSONString (ApiArg.path header) ++ js "}".

(** The replacement function of [cleanHeader]:
    ['\\u' + ('000' + char.charCodeAt(0).toString(16)).slice(-4)]. *)
Definition escapeChar (c : N) : jsstr :=
  [92; 117] ++ sliceLast 4 (js "000" ++ toString16 c).

Definition cleanHeader (header : ApiArg.t) : jsstr :=
  replace_7f_ffff escapeChar (JSON_stringify header).

Definition createDownloader {C} (w : World.t) (local remote : jsstr)
    (state : AppState.t) (progress : C) : FileSystem.DownloadResumable C :=
  let localPath := World.documentDirectory w ++ createValidFileURI local in
  let apiArg := cleanHeader {| ApiArg.path := remote |} in
  FileSystem.createDownloadResumable
    dropBoxDownloadUrl localPath (js "Bearer " ++ getAccessToken state) apiArg progress.

(** [{ ...track, downloadStatus: info.exists ? 100 : null }] *)
Definition isDownloaded (track : Track.t) (w : World.t) : Promise Track.t :=
  match FileSystem.getInfoAsync (getFilePath w (Some track)) w with
  | Rejected e => Rejected e
  | Resolved info =>
      Resolved {| Track.id := Track.id track;
                  Track.rev := Track.rev track;
                  Track.name := Track.name track;
                  Track.downloadStatus :=
                    if FileSystem.exists_ info then Some 100%Z else None;
                  Track.rest := Track.rest track |}
  end.

(** [console.error(error)] and the action handed to [dispatch]. *)
Definition handleError (error type : jsstr) (w : World.t) : World.t * (jsstr * jsstr) :=
  (World.with_console (World.console w ++ [error]) w, (error, type)).

(** The list of active files of [cleanFiles]: per playlist its normalised
    name, then the file name of each of its tracks. *)
Definition activeFiles (playlists : list Playlist.t) : list (option jsstr) :=
  foldl (λ all p,
           all ++ [Some (createValidFileURI (Playlist.name (Playlist.meta p)))]
               ++ (getFileName ∘ Some <$> Playlist.tracks (Playlist.data p)))
        [] playlists.

Definition inactiveFiles (files : list jsstr) (playlists : list Playlist.t) : list jsstr :=
  filter (λ f, (isPlaylist (Some f) || isAudioFile (Some f) = true)
               ∧ Some f ∉ activeFiles playlists) files.

(** What a call of [cleanFiles] leaves behind: the device, the promise the
    caller gets, and the promises of the deletions, which the function
    neither awaits nor returns. *)
Record purge := mkPurge {
  after : World.t;
  result : Promise unit;
  dropped : list (Promise unit)
}.

(** The deletions start in array order before [cleanFiles] returns and
    settle independently of each other; [after] is the device once all of
    them have settled. *)
Definition cleanFiles (getState : unit → AppState.t) (w : World.t) : purge :=
  let docPath := World.documentDirectory w in
  match FileSystem.readDirectoryAsync docPath w with
  | Rejected e => mkPurge w (Rejected e) []
  | Resolved files =>
      let state := getState () in
      let playlists := AppState.playlists_data state in
      let '(w', promises) :=
        mapWorld (λ f, FileSystem.deleteAsync (docPath ++ f))
                 (inactiveFiles files playlists) w in
      mkPurge w' (Resolved ()) promises
  end.

(** ** Predicates and examples the statements use *)

Definition isSeparator (c : N) : bool := bool_decide (c ∈ [45; 8212; 32]).

(** No hyphen, em-dash or space. *)
Definition separatorFree (s : jsstr) : bool := forallb (λ c, negb (isSeparator c)) s.

(** No hyphen, em-dash, underscore or white space. *)
Definition plainId (s : jsstr) : bool :=
  forallb (λ c, negb (isSeparator c) && negb (bool_decide (c = 95))
                && negb (isWhiteSpace c)) s.

(** The track of the specification's example:
    [{id: 'abc', rev: '3', name: 'My Song.mp3'}]. *)
Definition song : Track.t :=
  Track.mk (js "abc") (js "3") (Some (js "My Song.mp3")) None [].

(** Two tracks that differ in id and in revision. *)
Definition track_a_b__c : Track.t :=
  Track.mk (js "a_b") (js "c") (Some (js "x.mp3")) None [].
Definition track_a__b_c : Track.t :=
  Track.mk (js "a") (js "b_c") (Some (js "x.mp3")) None [].

(** A later revision of [song]. *)
Definition song_rev4 : Track.t :=
  Track.mk (js "abc") (js "4") (Some (js "My Song.mp3")) None [].

(** A device with the three files of the specification's purge example. *)
Definition device : World.t :=
  World.mk (js "file:///doc")
    [ (js "file:///doc/p1.mix", js "{}");
      (js "file:///doc/abc_3.mp3", js "ID3");
      (js "file:///doc/stray.txt", js "notes") ]
    [] [] [].


(** The playlist of the purge example: stored as [p1.mix], one track. *)
Definition tape : Playlist.t :=
  Playlist.mk (Playlist.mkMeta (js "p1.mix") (js "/tapes/p1.mix"))
              (Playlist.mkData (js "Tape one") [song]).

Definition state_tape : AppState.t := AppState.mk [tape] (js "token").
Definition state_empty : AppState.t := AppState.mk [] (js "token").

(** [device] with a track file that cannot be deleted. *)
Definition device_locked : World.t :=
  World.mk (World.root device) (World.disk device)
           [] [js "file:///doc/abc_3.mp3"] [].


(** A device with directories in the document directory: [album.mp3]
    holds a text file, [notes] an old playlist file. *)
Definition device_folders : World.t :=
  World.mk (js "file:///doc")
    [ (js "file:///doc/album.mp3/track.txt", js "lyrics");
      (js "file:///doc/notes/old.mix", js "{}");
      (js "file:///doc/stray.txt", js "notes") ]
    [] [] [].

(** Listing entries: an audio file modified by a user, one whose sharing
    information names nobody, and a folder without sharing information. *)
Definition entry_song : Entry.t :=
  Entry.mk (js "file") (Some (js "My Song.mp3")) (js "/tapes/My Song.mp3")
           (Some (Entry.mkSharing (Some (js "dbid:alice")))).
Definition entry_other_song : Entry.t :=
  Entry.mk (js "file") (Some (js "b-side.mp3")) (js "/tapes/b-side.mp3")
           (Some (Entry.mkSharing None)).
Definition entry_folder : Entry.t :=
  Entry.mk (js "folder") (Some (js "tapes")) (js "/tapes") None.


(** The header transform in the specification's words: every code unit
    above U+007F becomes a [\u] escape of four hexadecimal digits. *)
Definition escapeAbove7F (s : jsstr) : jsstr :=
  c ← s; if 127 <? c then UnicodeEscape c else [c].

(** The same from U+007F on, DEL included. *)
Definition escapeFrom7F (s : jsstr) : jsstr :=
  c ← s; if 127 <=? c then UnicodeEscape c else [c].

(** What becomes of one code unit of the remote path in the header. *)
Definition headerUnit (c : N) : jsstr :=
  if 127 <=? c then UnicodeEscape c else quoteUnit c.

(** A JavaScript string: every code unit has 16 bits. *)
Definition wellFormed (s : jsstr) : bool := forallb (λ c, c <? 65536) s.

(** The remote path [/É] of the specification's example (É is U+00C9). *)
Definition remote_E_acute : jsstr := js "/" ++ [201].


(** ** The download manager *)

(** Modelled from the spec: the code that starts a download for a track,
    cancels the one before and applies progress to [downloadStatus] (the
    [downloadTracks] action of [modules/playlists] and its reducer) is not
    among the sources; [utils.js] only builds the request
    ([createDownloader]).  The manager follows sections 3, 4.4 and 5 of the
    specification: a session owns its request and its identity, a track
    has at most one active session, starting a download cancels the active
    session of the track, and a progress update is applied only when the
    identity it carries is the one of the track's active session. *)
Module DownloadManager.

Inductive phase := InFlight | Cancelled | Complete.

#[export] Instance phase_eq_dec : EqDecision phase.
Proof. solve_decision. Defined.

(** Modelled from the spec: a download session (section 3), the missing
    manager's unit of work.  It owns its identity, the id of its track, the
    request built by [createDownloader] (whose progress callback carries
    the identity) and where it stands. *)
Record session := mkSession {
  sid : nat;
  track : jsstr;
  request : FileSystem.DownloadResumable nat;
  phase_of : phase
}.

(** Modelled from the spec: the state of the missing download manager.
    Every session started so far (newest first), the active session of each
    track, the [downloadStatus] of each track (absent for [null]) and the
    next session identity (the generation counter of section 9). *)
Record t := mk {
  sessions : list session;
  active : gmap jsstr nat;
  status : gmap jsstr Z;
  next : nat
}.

Definition init : t := mk [] ∅ ∅ 0.

Definition setPhase (i : nat) (p : phase) (ss : list session) : list session :=
  (λ s, if decide (sid s = i) then mkSession (sid s) (track s) (request s) p else s)
    <$> ss.

Definition trackOf (i : nat) (m : t) : option jsstr :=
  track <$> List.find (λ s, bool_decide (sid s = i)) (sessions m).

(** Modelled from the spec: [download(track)] of the missing manager
    (section 4.4, steps 1, 2 and 5).  Cancel the active session of the
    track, if any, then start a session of a fresh identity. *)
Definition download (w : World.t) (state : AppState.t) (tr : Track.t)
    (remote : jsstr) (m : t) : t :=
  let prior :=
    match active m !! Track.id tr with
    | Some i => setPhase i Cancelled (sessions m)
    | None => sessions m
    end in
  let s := mkSession (next m) (Track.id tr)
             (createDownloader w (template (getFileName (Some tr))) remote state (next m))
             InFlight in
  mk (s :: prior) (<[Track.id tr := next m]> (active m)) (status m) (S (next m)).

(** Modelled from the spec: the status of a progress event (section 4.4,
    step 3), [floor(bytesWritten / totalBytes * 100)], at most 99 while the
    transfer is incomplete. *)
Definition percent (written total : N) : Z :=
  Z.min 99 (Z.of_N (written * 100 / total)).

(** Modelled from the spec: a progress event of session [i] in the
    missing manager (section 5).  It is applied when [i] is the active
    session of its track and discarded otherwise. *)
Definition progress (i : nat) (written total : N) (m : t) : t :=
  match trackOf i m with
  | Some id =>
      if decide (active m !! id = Some i)
      then mk (sessions m) (active m) (<[id := percent written total]> (status m)) (next m)
      else m
  | None => m
  end.

(** Modelled from the spec: successful completion of session [i] in the
    missing manager (section 4.4, step 3): the status becomes 100. *)
Definition finish (i : nat) (m : t) : t :=
  match trackOf i m with
  | Some id =>
      if decide (active m !! id = Some i)
      then mk (setPhase i Complete (sessions m)) (delete id (active m))
              (<[id := 100%Z]> (status m)) (next m)
      else m
  | None => m
  end.

Inductive event :=
  | Download (tr : Track.t) (remote : jsstr)
  | Progress (i : nat) (written total : N)
  | Finish (i : nat).

Definition step (w : World.t) (state : AppState.t) (m : t) (ev : event) : t :=
  match ev with
  | Download tr remote => download w state tr remote m
  | Progress i written total => progress i written total m
  | Finish i => finish i m
  end.

Definition run (w : World.t) (state : AppState.t) (events : list event) (m : t) : t :=
  foldl (step w state) m events.

(** The sessions of a track that are in flight. *)
Definition inFlight (id : jsstr) (m : t) : list session :=
  filter (λ s, track s = id ∧ phase_of s = InFlight) (sessions m).

(** What holds of every state the manager reaches: identities are fresh
    and unique, a session in flight is the active one of its track, and
    the active session of a track is in flight. *)
Record consistent (m : t) : Prop := {
  sid_fresh : ∀ s, s ∈ sessions m → (sid s < next m)%nat;
  sid_unique : NoDup (sid <$> sessions m);
  inflight_active : ∀ s, s ∈ sessions m → phase_of s = InFlight →
                         active m !! track s = Some (sid s);
  active_inflight : ∀ id i, active m !! id = Some i →
                            ∃ s, s ∈ sessions m ∧ sid s = i ∧ track s = id
                                 ∧ phase_of s = InFlight
}.

(** A session of track [id] that is no longer its active one. *)
Definition superseded (i : nat) (id : jsstr) (m : t) : Prop :=
  (i < next m)%nat ∧ trackOf i m = Some id ∧ active m !! id ≠ Some i.

End DownloadManager.

(** A download of [song] and a first progress event of its session. *)
Definition two_events : list DownloadManager.event :=
  [DownloadManager.Download song remote_E_acute; DownloadManager.Progress 0 10 100].


(** ** The rest of [utils.js] *)

(** An instant a [Date] can hold: at most 8 640 000 000 000 000
    milliseconds from the epoch, on either side. *)
Definition validInstant (z : Z) : bool :=
  ((-8640000000000000 <=? z) && (z <=? 8640000000000000))%Z.

(** [checkTimeout(timestamp, timeout = 5)]:
    [timestamp != null && moment().diff(timestamp, 'minutes') < timeout].
    Instants are milliseconds since the epoch and [now] is the instant
    [moment()] reads; [diff] in minutes divides the difference by 60000 and
    truncates towards zero.  An instant outside the range of [Date] makes
    an invalid moment: its [diff] is [NaN], and [NaN < timeout] is false.
    The arithmetic is the one of whole numbers, which the doubles of the
    code agree with for instants in that range and a timeout of up to 2^36
    minutes. *)
Definition checkTimeout (now : Z) (timestamp : option Z) (timeout : option Z) : bool :=
  match timestamp with
  | None => false
  | Some ts =>
      validInstant now && validInstant ts
      && (Z.quot (now - ts) 60000 <? default 5 timeout)%Z
  end.

(** A string [createValidFileURI] leaves alone: no separator in it, no
    white space at its ends. *)
Definition tidy (e : jsstr) : Prop := separatorFree e = true ∧ trim e = e.

(** A device whose document directory holds a directory [sub] with a
    playlist file in it, and that holds a track file elsewhere. *)
Definition device_elsewhere : World.t :=
  World.mk (js "file:///doc")
    [ (js "file:///doc/sub/p1.mix", js "{}");
      (js "file:///music/abc_3.mp3", js "ID3") ]
    [] [] [].

(** ** [src/components/Player/index.js]

    The component is modelled by its instance (props, state and
    [this.sound]) and by what a method leaves behind: the new instance and
    the calls it made on the props' callbacks, the console and the sound.
    JavaScript numbers stay abstract ([Numbers]): the methods only divide
    and multiply them.  [setState] takes effect at once, and a method runs
    to completion before the next one starts. *)

Module Player.

Class Numbers (num : Type) := mkNumbers {
  zero : num;
  one : num;
  div : num → num → num;
  mul : num → num → num
}.

(** [this.state] *)
Module State.
Section Fields.
Context {num : Type}.
Record t := mk {
  currentTime : num;
  duration : num;
  fullScreen : bool;
  isBuffering : bool;
  isPlaying : bool;
  isSeeking : bool;
  position : num;
  rate : num;
  shouldPlay : bool;
  volume : num
}.
End Fields.
Arguments t : clear implicits.
End State.

(** The playback status [expo-av] hands to the update callback. *)
Module Status.
Section Fields.
Context {num : Type}.
Record t := mk {
  isLoaded : bool;
  positionMillis : num;
  durationMillis : num;
  isBuffering : bool;
  isPlaying : bool;
  rate : num;
  shouldPlay : bool;
  volume : num;
  didJustFinish : bool;
  error : option jsstr
}.
End Fields.
Arguments t : clear implicits.
End Status.

(** The props the methods read; the callbacks show up as [effect]s. *)
Module Props.
Record t := mk {
  id : option jsstr;
  isPaused : bool;
  isPlaying : bool;
  playlist : Playlist.t;
  track : option Track.t
}.
End Props.

(** A sound of [expo-av]: where it was loaded from, whether it was told to
    play at once, and whether the update callback is still attached. *)
Module Sound.
Record t := mk {
  uri : option jsstr;
  shouldPlay : bool;
  listening : bool
}.
End Sound.

Section Component.
Context {num : Type} `{Numbers num}.

Record t := mk {
  props : Props.t;
  state : State.t num;
  sound : option Sound.t
}.

Inductive effect :=
  | TrackComplete
  | Stop
  | ConsoleError (message : jsstr)
  | PlayAsync
  | PauseAsync
  | PlayFromPositionAsync (millis : num)
  | SetPositionAsync (millis : num).

(** The class field [state = { ... }]. *)
Definition initialState : State.t num :=
  State.mk zero zero false false false false zero one false one.

Definition setState (st : State.t num) (p : t) : t := mk (props p) st (sound p).

(** [status.error] as a condition: a non-empty string. *)
Definition truthy (v : option jsstr) : bool := Boolean v.

Definition handleAudioUpdate (status : Status.t num) (p : t) : t * list effect :=
  if Status.isLoaded status then
    (setState
       (State.mk (Status.positionMillis status)
                 (Status.durationMillis status)
                 (State.fullScreen (state p))
                 (Status.isBuffering status)
                 (Status.isPlaying status)
                 (State.isSeeking (state p))
                 (if State.isSeeking (state p) then State.position (state p)
                  else div (Status.positionMillis status) (Status.durationMillis status))
                 (Status.rate status)
                 (Status.shouldPlay status)
                 (Status.volume status)) p,
     if Status.didJustFinish status then [TrackComplete] else [])
  else if truthy (Status.error status) then
    (p, [ConsoleError (js "Player Error: " ++ template (Status.error status)); Stop])
  else (p, []).

Definition handlePause (shouldPlay : bool) (p : t) : list effect :=
  match sound p with
  | Some _ => if shouldPlay then [PlayAsync] else [PauseAsync]
  | None => []
  end.

Definition withSeek (seeking : bool) (position : num) (st : State.t num) : State.t num :=
  State.mk (State.currentTime st) (State.duration st) (State.fullScreen st)
           (State.isBuffering st) (State.isPlaying st) seeking position
           (State.rate st) (State.shouldPlay st) (State.volume st).

Definition seekEnd (position : num) (p : t) : t * list effect :=
  let calls :=
    match sound p with
    | Some _ =>
        let seekTo := mul position (State.duration (state p)) in
        if Props.isPlaying (props p) && negb (Props.isPaused (props p))
        then [PlayFromPositionAsync seekTo]
        else [SetPositionAsync seekTo]
    | None => []
    end in
  (setState (withSeek false position (state p)) p, calls).

Definition seeking (position : num) (p : t) : t :=
  setState (withSeek true position (state p)) p.

Definition toggleFullScreen (p : t) : t :=
  let st := state p in
  setState
    (State.mk (State.currentTime st) (State.duration st) (negb (State.fullScreen st))
              (State.isBuffering st) (State.isPlaying st) (State.isSeeking st)
              (State.position st) (State.rate st) (State.shouldPlay st)
              (State.volume st)) p.

(** [!track || !track.downloadStatus || track.downloadStatus < 100] *)
Definition notReady (track : option Track.t) : bool :=
  match track with
  | None => true
  | Some t =>
      match Track.downloadStatus t with
      | None => true
      | Some n => (n =? 0)%Z || (n <? 100)%Z
      end
  end.

(** [initializeSound(trackOverride, shouldPlayOverride)], one call run to
    completion.  [unloadError] is what [unloadAsync] throws, if it throws,
    and [createFails] says whether [Audio.Sound.createAsync] throws.  The
    result is the instance afterwards and what the call printed to the
    console.  When [unloadAsync] throws, [this.sound = null] is skipped:
    the old sound stays in [this.sound], its callback detached. *)
Definition initializeSound (w : World.t) (unloadError : option jsstr)
    (createFails : bool) (trackOverride : option Track.t)
    (shouldPlayOverride : option bool) (p : t) : t * list effect :=
  let '(held, printed) :=
    match sound p with
    | Some s =>
        let detached := Sound.mk (Sound.uri s) (Sound.shouldPlay s) false in
        match unloadError with
        | Some err => (Some detached, [ConsoleError err])
        | None => (None, [])
        end
    | None => (None, [])
    end in
  let track :=
    match trackOverride with
    | Some t => Some t
    | None => Props.track (props p)
    end in
  if notReady track then (mk (props p) (state p) held, printed)
  else
    let source := getFilePath w track in
    let shouldPlay :=
      default false shouldPlayOverride
      || (Props.isPlaying (props p) && negb (Props.isPaused (props p))) in
    if createFails then (mk (props p) (state p) None, printed)
    else (mk (props p) (state p) (Some (Sound.mk source shouldPlay true)), printed).

(** A run of status updates, as the sound delivers them. *)
Definition updates (statuses : list (Status.t num)) (p : t) : t :=
  foldl (λ q status, (handleAudioUpdate status q).1) p statuses.

End Component.
Arguments t : clear implicits.
Arguments effect : clear implicits.

(** [array.findIndex(f)]: the first index where [f] holds, -1 when there
    is none. *)
Fixpoint findIndex {A} (f : A → bool) (l : list A) : Z :=
  match l with
  | [] => -1
  | a :: l' =>
      if f a then 0
      else let i := findIndex f l' in if (i <? 0)%Z then -1 else i + 1
  end%Z.

Fixpoint decDigits (fuel : nat) (n : N) (acc : jsstr) : jsstr :=
  match fuel with
  | O => acc
  | S fuel' =>
      if n =? 0 then acc
      else decDigits fuel' (n / 10) ((48 + n mod 10) :: acc)
  end.

(** A template literal's [${n}] for an integer. *)
Definition templateInt (n : Z) : jsstr :=
  let digits m := if m =? 0 then [48] else decDigits (N.to_nat (N.size m)) m [] in
  if (n <? 0)%Z then js "-" ++ digits (Z.to_N (- n)) else digits (Z.to_N n).

(** A template literal's [${v}] for a string or [undefined]. *)
Definition templateUndefined (v : option jsstr) : jsstr := default (js "undefined") v.

(** [render]'s [trackName]. *)
Definition trackName (props : Props.t) : option jsstr :=
  match Props.track props with
  | Some track =>
      Some (templateInt
              (findIndex (λ t, bool_decide (Some (Track.id t) = Props.id props))
                         (Playlist.tracks (Playlist.data (Props.playlist props))) + 1)
            ++ js ". " ++ templateUndefined (Track.name track))
  | None => None
  end.

(** [track.downloadStatus === 100] *)
Definition canPlay (track : Track.t) : bool :=
  bool_decide (Track.downloadStatus track = Some 100%Z).

(** [track.downloadStatus > 0 && track.downloadStatus < 100]; [null]
    compares as 0. *)
Definition downloading (track : Track.t) : bool :=
  match Track.downloadStatus track with
  | Some n => (0 <? n)%Z && (n <? 100)%Z
  | None => false
  end.

End Player.

(** Whole numbers with the division and product of [Z], to run the
    player on examples. *)
#[export] Instance wholeNumbers : Player.Numbers Z :=
  Player.mkNumbers Z 0%Z 1%Z Z.div Z.mul.

(** A mounted player showing [song], downloaded, of [tape]. *)
Definition song_downloaded : Track.t :=
  Track.mk (js "abc") (js "3") (Some (js "My Song.mp3")) (Some 100%Z) [].

Definition player : Player.t Z :=
  Player.mk
    (Player.Props.mk (Some (js "abc")) false true tape (Some song_downloaded))
    Player.initialState None.

(** ** Reading a header back *)

(** The value of a hexadecimal digit, the inverse of [hexDigit]. *)
Definition hexValue (x : N) : N := if x <? 58 then x - 48 else x - 87.

(** The code unit behind a short escape of [quoteUnit]. *)
Definition shortEscape (x : N) : option N :=
  if decide (x = 98) then Some 8
  else if decide (x = 116) then Some 9
  else if decide (x = 110) then Some 10
  else if decide (x = 102) then Some 12
  else if decide (x = 114) then Some 13
  else if decide (x = 34) then Some 34
  else if decide (x = 92) then Some 92
  else None.

(** Reads one code unit of the remote path off the front of a header
    body: the inverse of [headerUnit], used to show that the header
    determines the path. *)
Definition decodeUnit (s : jsstr) : option (N * jsstr) :=
  match s with
  | [] => None
  | c :: rest =>
      if decide (c = 92) then
        match rest with
        | [] => None
        | x :: rest' =>
            if decide (x = 117) then
              match rest' with
              | a :: b :: d :: e :: rest'' =>
                  Some (((hexValue a * 16 + hexValue b) * 16 + hexValue d) * 16
                        + hexValue e, rest'')
              | _ => None
              end
            else v ← shortEscape x; Some (v, rest')
        end
      else Some (c, rest)
  end.

(** Printable ASCII without the quote and the backslash: the code units
    JSON and the header transform leave alone. *)
Definition plainAscii (s : jsstr) : bool :=
  forallb (λ c, (32 <=? c) && (c <? 127) && negb (c =? 34) && negb (c =? 92)) s.

(** * Properties *)

(** ** Strings and file names *)

Section Strings.
Implicit Types (s : jsstr) (c sep : N).

Lemma split_not_nil sep s : split sep s ≠ [].
Proof. destruct s as [|c s]; simpl; [done|]. case_decide; [done|]. by destruct (split sep s). Qed.

Lemma join_split sep u s : join [u] (split sep s) = substitute sep u <$> s.
Proof.
  induction s as [|c s IH]; [done|].
  cbn [split fmap list_fmap]. unfold substitute at 1. case_decide.
  - pose proof (split_not_nil sep s). rewrite <- IH.
    simpl. by destruct (split sep s).
  - rewrite <- IH. pose proof (split_not_nil sep s).
    destruct (split sep s) as [|w [|w' ws]]; done.
Qed.

Lemma split_pieces sep s : Forall (λ p, sep ∉ p) (split sep s).
Proof.
  induction s as [|c s IH]; simpl.
  - repeat constructor. apply not_elem_of_nil.
  - case_decide.
    + constructor; [apply not_elem_of_nil | done].
    + destruct (split sep s) as [|w ws]; [repeat constructor|].
      * rewrite list_elem_of_singleton. congruence.
      * inversion_clear IH. constructor; [|done].
        rewrite not_elem_of_cons. split; [congruence | done].
Qed.

Lemma trimStart_idemp s : trimStart (trimStart s) = trimStart s.
Proof.
  induction s as [|c s IH]; [done|]. simpl.
  destruct (isWhiteSpace c) eqn:E; [done|]. simpl. by rewrite E.
Qed.

Lemma trimStart_snoc s c :
  trimStart (s ++ [c]) =
    match trimStart s with
    | [] => if isWhiteSpace c then [] else [c]
    | t => t ++ [c]
    end.
Proof.
  induction s as [|d s IH]; simpl; [done|].
  destruct (isWhiteSpace d); [done|]. done.
Qed.

Lemma trimEnd_cons c s :
  trimEnd (c :: s) =
    match trimEnd s with
    | [] => if isWhiteSpace c then [] else [c]
    | t => c :: t
    end.
Proof.
  unfold trimEnd. rewrite reverse_cons, trimStart_snoc.
  destruct (trimStart (reverse s)) as [|d t] eqn:E.
  - rewrite reverse_nil. by destruct (isWhiteSpace c).
  - rewrite reverse_app, reverse_singleton. simpl.
    destruct (reverse (d :: t)) eqn:E'; [|done].
    apply (f_equal reverse) in E'. rewrite reverse_involutive in E'. done.
Qed.

Lemma trimEnd_idemp s : trimEnd (trimEnd s) = trimEnd s.
Proof. unfold trimEnd. by rewrite reverse_involutive, trimStart_idemp. Qed.

Lemma trimStart_trimEnd s : trimStart (trimEnd s) = trimEnd (trimStart s).
Proof.
  induction s as [|c s IH]; [done|].
  rewrite trimEnd_cons. cbn [trimStart].
  destruct (isWhiteSpace c) eqn:E.
  - rewrite <- IH. destruct (trimEnd s); [done|]. cbn [trimStart]. by rewrite E.
  - rewrite trimEnd_cons. rewrite E.
    destruct (trimEnd s); cbn [trimStart]; by rewrite E.
Qed.

Lemma trim_idemp s : trim (trim s) = trim s.
Proof.
  unfold trim. rewrite trimStart_trimEnd, trimStart_idemp.
  by rewrite trimEnd_idemp.
Qed.

Lemma trimStart_suffix s : trimStart s `suffix_of` s.
Proof.
  induction s as [|c s IH]; simpl; [done|].
  destruct (isWhiteSpace c); [by apply suffix_cons_r | done].
Qed.

Lemma trimEnd_prefix s : trimEnd s `prefix_of` s.
Proof.
  unfold trimEnd. apply prefix_suffix_reverse.
  rewrite reverse_involutive. apply trimStart_suffix.
Qed.

Lemma trim_sublist s c : c ∈ trim s → c ∈ s.
Proof.
  unfold trim. intros H.
  destruct (trimEnd_prefix (trimStart s)) as [k Hk].
  destruct (trimStart_suffix s) as [k' Hk'].
  rewrite Hk', Hk, !elem_of_app. auto.
Qed.

Lemma createValidFileURI_eq s :
  createValidFileURI s = trim (separatorToUnderscore <$> s).
Proof.
  unfold createValidFileURI. change (js "_") with [95].
  rewrite !join_split, <- !list_fmap_compose. f_equal.
  apply list_fmap_ext. intros _ c _. unfold compose, substitute, separatorToUnderscore.
  repeat case_decide; case_bool_decide as Hc; subst; try done;
    rewrite ?elem_of_cons, ?elem_of_nil in Hc; try (exfalso; tauto).
  all: try (destruct Hc as [?|[?|[?|[]]]]; congruence).
Qed.

Lemma separatorToUnderscore_idemp c :
  separatorToUnderscore (separatorToUnderscore c) = separatorToUnderscore c.
Proof.
  unfold separatorToUnderscore. by repeat case_bool_decide.
Qed.

Lemma separatorToUnderscore_not_sep c :
  separatorToUnderscore c ∉ [45; 8212; 32].
Proof.
  unfold separatorToUnderscore. case_bool_decide; [|done].
  rewrite !elem_of_cons, elem_of_nil. lia.
Qed.

Lemma fmap_fixed (f : N → N) s : Forall (λ c, f c = c) s → f <$> s = s.
Proof. induction 1 as [|c s Hc _ IH]; [done|]. csimpl. by rewrite Hc, IH. Qed.

Lemma trimStart_head s c : head (trimStart s) = Some c → isWhiteSpace c = false.
Proof.
  induction s as [|d s IH]; simpl; [done|].
  destruct (isWhiteSpace d) eqn:E; [done|]. simpl. congruence.
Qed.

Lemma trim_ends s c :
  head (trim s) = Some c ∨ last (trim s) = Some c → isWhiteSpace c = false.
Proof.
  intros [H|H].
  - unfold trim in H. rewrite <- trimStart_trimEnd in H. by apply trimStart_head in H.
  - unfold trim, trimEnd in H. rewrite last_reverse in H. by apply trimStart_head in H.
Qed.

(** C7: [createValidFileURI] replaces every hyphen, em-dash and space by an
    underscore and trims the white space at both ends of the result, so its
    result holds none of the three and neither starts nor ends with white
    space; applying it to its own result changes nothing. *)
Theorem createValidFileURI_idempotent s :
  createValidFileURI s = trim (separatorToUnderscore <$> s)
  ∧ (∀ c, c ∈ createValidFileURI s → c ≠ 45 ∧ c ≠ 8212 ∧ c ≠ 32)
  ∧ (∀ c, head (createValidFileURI s) = Some c ∨ last (createValidFileURI s) = Some c →
          isWhiteSpace c = false)
  ∧ createValidFileURI (createValidFileURI s) = createValidFileURI s.
Proof.
  assert (Hin : ∀ c, c ∈ createValidFileURI s → c ∉ [45; 8212; 32]).
  { intros c. rewrite createValidFileURI_eq. intros Hc%trim_sublist.
    apply list_elem_of_fmap in Hc as (d & -> & _). apply separatorToUnderscore_not_sep. }
  split; [apply createValidFileURI_eq|]. split.
  { intros c Hc%Hin. rewrite !not_elem_of_cons in Hc. tauto. }
  split.
  { intros c. rewrite createValidFileURI_eq. apply trim_ends. }
  rewrite (createValidFileURI_eq (createValidFileURI s)).
  rewrite fmap_fixed.
  - rewrite createValidFileURI_eq. apply trim_idemp.
  - apply Forall_forall. intros c Hc%Hin. unfold separatorToUnderscore.
    by rewrite bool_decide_false.
Qed.
End Strings.

(** ** File names of tracks *)

Section FileNames.
Implicit Types (s : jsstr) (c : N) (t : Track.t).

Lemma getExtension_no_dot name : 46 ∉ getExtension name.
Proof.
  unfold getExtension, pop.
  destruct (last (split 46 (default [] name))) as [e|] eqn:E; [|apply not_elem_of_nil].
  apply last_Some_elem_of in E.
  pose proof (split_pieces 46 (default [] name)) as H.
  rewrite Forall_forall in H. by apply H.
Qed.

Lemma trimEnd_keep a c e :
  isWhiteSpace c = false → trimEnd (a ++ c :: e) = a ++ c :: trimEnd e.
Proof.
  intros Hc. induction a as [|d a IH]; simpl.
  - rewrite trimEnd_cons, Hc. by destruct (trimEnd e).
  - rewrite trimEnd_cons, IH. by destruct a.
Qed.

Lemma separatorFree_fixed s :
  separatorFree s = true → separatorToUnderscore <$> s = s.
Proof.
  intros H. apply fmap_fixed, Forall_forall. intros c Hc.
  unfold separatorFree in H. rewrite forallb_forall in H.
  apply list_elem_of_In in Hc. specialize (H c Hc).
  unfold separatorToUnderscore. unfold isSeparator in H.
  by destruct (bool_decide (c ∈ [45; 8212; 32])).
Qed.

Lemma plainId_spec s :
  plainId s = true →
  separatorFree s = true ∧ (95 ∉ s) ∧ trimStart (s ++ [95]) = s ++ [95].
Proof.
  unfold plainId, separatorFree. induction s as [|c s IH]; simpl.
  - intros _. split; [done|]. split; [apply not_elem_of_nil | done].
  - rewrite !andb_true_iff, !negb_true_iff. intros [[[H1 H2] H3] H4].
    destruct (IH H4) as (? & ? & ?). rewrite H1, H3. repeat split; try done.
    apply not_elem_of_cons. split; [|done].
    apply bool_decide_eq_false in H2. congruence.
Qed.

(** The file name of a track with a plain id and a separator-free
    revision, spelled out. *)
Lemma getFileName_plain t :
  plainId (Track.id t) = true → separatorFree (Track.rev t) = true →
  getFileName (Some t) =
    Some (Track.id t ++ 95 :: Track.rev t ++ 46 ::
          trimEnd (separatorToUnderscore <$> getExtension (Track.name t))).
Proof.
  intros (Hid & _ & Hstart)%plainId_spec Hrev. unfold getFileName. f_equal.
  rewrite createValidFileURI_eq. change (js "_") with [95]. change (js ".") with [46].
  rewrite !fmap_app, (separatorFree_fixed _ Hid), (separatorFree_fixed _ Hrev).
  change (separatorToUnderscore <$> [95]) with [95].
  change (separatorToUnderscore <$> [46]) with [46].
  unfold trim.
  replace (trimStart (Track.id t ++ [95] ++ Track.rev t ++ [46] ++
             (separatorToUnderscore <$> getExtension (Track.name t))))
    with (Track.id t ++ [95] ++ Track.rev t ++ [46] ++
             (separatorToUnderscore <$> getExtension (Track.name t))).
  - rewrite (assoc_L (++) (Track.id t) [95]), (assoc_L (++) _ (Track.rev t)).
    simpl. rewrite trimEnd_keep by done. by rewrite <- !(assoc_L (++)).
  - revert Hstart. generalize (Track.rev t ++ [46] ++
      (separatorToUnderscore <$> getExtension (Track.name t))). intros r.
    destruct (Track.id t) as [|c i]; simpl; [done|].
    destruct (isWhiteSpace c); [|done].
    intros H. apply (f_equal length) in H.
    pose proof (suffix_length _ _ (trimStart_suffix (i ++ [95]))). simpl in H. lia.
Qed.

Lemma extension_tail_no_dot name :
  46 ∉ trimEnd (separatorToUnderscore <$> getExtension name).
Proof.
  intros H. destruct (trimEnd_prefix (separatorToUnderscore <$> getExtension name)) as [k Hk].
  assert (46 ∈ separatorToUnderscore <$> getExtension name) as Hin.
  { rewrite Hk, elem_of_app. by left. }
  apply list_elem_of_fmap in Hin as (c & Hc & Hin).
  unfold separatorToUnderscore in Hc. case_bool_decide; [done|]. subst c.
  by apply (getExtension_no_dot name).
Qed.

Lemma getFileName_injective t t' :
  plainId (Track.id t) = true → plainId (Track.id t') = true →
  separatorFree (Track.rev t) = true → separatorFree (Track.rev t') = true →
  getFileName (Some t) = getFileName (Some t') →
  Track.id t = Track.id t' ∧ Track.rev t = Track.rev t'.
Proof.
  intros Hi Hi' Hr Hr'. rewrite !getFileName_plain by done. intros [= H].
  apply plainId_spec in Hi as (_ & Hi & _). apply plainId_spec in Hi' as (_ & Hi' & _).
  apply not_elem_of_app_cons_inv_l in H as (Hid & _ & H); [|done..].
  apply not_elem_of_app_cons_inv_r in H as (Hrev & _ & _);
    [done | apply extension_tail_no_dot..].
Qed.

(** C3 (amended): the file name of a track is a function of its id, its
    revision and the extension of its name, and the path of the document
    directory and that file name; two tracks with plain ids (no hyphen,
    em-dash, underscore or white space) and separator-free revisions whose
    (id, rev) pairs differ have different file names and paths; the track
    [{id: 'abc', rev: '3', name: 'My Song.mp3'}] is stored as [abc_3.mp3]. *)
Theorem getFileName_deterministic :
  (∀ w w' t t',
     World.documentDirectory w = World.documentDirectory w' →
     Track.id t = Track.id t' → Track.rev t = Track.rev t' →
     getExtension (Track.name t) = getExtension (Track.name t') →
     getFileName (Some t) = getFileName (Some t')
     ∧ getFilePath w (Some t) = getFilePath w' (Some t'))
  ∧ (∀ w t t',
       plainId (Track.id t) = true → plainId (Track.id t') = true →
       separatorFree (Track.rev t) = true → separatorFree (Track.rev t') = true →
       (Track.id t, Track.rev t) ≠ (Track.id t', Track.rev t') →
       getFileName (Some t) ≠ getFileName (Some t')
       ∧ getFilePath w (Some t) ≠ getFilePath w (Some t'))
  ∧ getFileName (Some song) = Some (js "abc_3.mp3").
Proof.
  split; [|split; [|done]].
  - intros w w' t t' Hw Hid Hrev Hext. unfold getFilePath, getFileName.
    by rewrite Hw, Hid, Hrev, Hext.
  - intros w t t' Hi Hi' Hr Hr' Hne.
    assert (getFileName (Some t) ≠ getFileName (Some t')) as Hn.
    { intros H. apply getFileName_injective in H as [??]; [|done..]. apply Hne. congruence. }
    split; [done|]. unfold getFilePath. intros [= H%app_inv_head]. apply Hn.
    simpl in *. congruence.
Qed.

(** C3 as stated fails: ids [a_b] and [a] with revisions [c] and [b_c]
    differ in id and in revision and share the file name [a_b_c.mp3]. *)
Lemma getFileName_collision :
  (Track.id track_a_b__c, Track.rev track_a_b__c)
    ≠ (Track.id track_a__b_c, Track.rev track_a__b_c)
  ∧ getFileName (Some track_a_b__c) = getFileName (Some track_a__b_c).
Proof. split; [discriminate | reflexivity]. Qed.

Lemma getFileName_deterministic_witness :
  getFileName (Some song) ≠ getFileName (Some song_rev4)
  ∧ getFilePath device (Some song) ≠ getFilePath device (Some song_rev4).
Proof.
  refine (proj1 (proj2 getFileName_deterministic) device song song_rev4 _ _ _ _ _);
    [reflexivity .. | discriminate].
Defined.
End FileNames.

(** ** The device and the purge of inactive files *)

Section Device.
Implicit Types (w : World.t) (uri dir f : jsstr) (e : jsstr * jsstr).

Lemma stripPrefix_Some dir uri n :
  FileSystem.stripPrefix dir uri = Some n ↔ uri = dir ++ n.
Proof.
  revert uri. induction dir as [|a dir IH]; intros [|b uri]; simpl;
    try (split; congruence).
  case_decide; subst; rewrite ?IH; split; congruence.
Qed.

Lemma firstSegment_split n :
  ∃ rest, n = FileSystem.firstSegment n ++ rest ∧ FileSystem.goesOn rest.
Proof.
  induction n as [|c n (rest & IH & Hrest)]; simpl.
  - exists []. split; [done|by left].
  - case_decide as Hc.
    + subst c. exists (47 :: n). split; [done|]. right. by exists n.
    + exists rest. split; [|done]. simpl. by rewrite <- IH.
Qed.

Lemma firstSegment_no_slash n : 47 ∉ FileSystem.firstSegment n.
Proof.
  induction n as [|c n IH]; simpl; [apply not_elem_of_nil|].
  case_decide; [apply not_elem_of_nil|].
  rewrite not_elem_of_cons. split; [congruence|done].
Qed.

Lemma firstSegment_app f rest :
  47 ∉ f → FileSystem.goesOn rest → FileSystem.firstSegment (f ++ rest) = f.
Proof.
  intros Hf Hrest. induction f as [|c f IH]; simpl.
  - by destruct Hrest as [->|(r & ->)].
  - apply not_elem_of_cons in Hf as [Hc Hf]. case_decide; [congruence|].
    by rewrite IH.
Qed.

Lemma atOrBelow_spec target uri :
  FileSystem.atOrBelow target uri = true
  ↔ ∃ rest, uri = target ++ rest ∧ FileSystem.goesOn rest.
Proof.
  unfold FileSystem.atOrBelow.
  rewrite orb_true_iff, !bool_decide_eq_true. split.
  - intros [->|[n Hn]].
    + exists []. rewrite app_nil_r. split; [done|by left].
    + apply stripPrefix_Some in Hn. exists (47 :: n).
      rewrite Hn, <- app_assoc. split; [done|]. right. by exists n.
  - intros (rest & -> & [->|(r & ->)]).
    + left. by rewrite app_nil_r.
    + right. exists r. apply stripPrefix_Some. by rewrite <- app_assoc.
Qed.

Lemma entryName_Some dir uri f :
  FileSystem.entryName dir uri = Some f
  ↔ f ≠ [] ∧ (47 ∉ f) ∧ ∃ rest, uri = dir ++ f ++ rest ∧ FileSystem.goesOn rest.
Proof.
  unfold FileSystem.entryName.
  destruct (FileSystem.stripPrefix dir uri) as [n|] eqn:E; simpl.
  - apply stripPrefix_Some in E. subst uri. case_decide as Hn; split.
    + done.
    + intros (Hf & Hs & rest & ->%app_inv_head & Hrest).
      by rewrite firstSegment_app in Hn.
    + intros [= <-]. split; [done|]. split; [apply firstSegment_no_slash|].
      destruct (firstSegment_split n) as (rest & Heq & Hrest).
      exists rest. split; [by rewrite <- Heq|done].
    + intros (Hf & Hs & rest & ->%app_inv_head & Hrest).
      by rewrite firstSegment_app.
  - split; [done|]. intros (_ & _ & rest & H & _).
    apply stripPrefix_Some in H. congruence.
Qed.

(** For a name of a listing, to be at or below the entry is to show under
    that name. *)
Lemma atOrBelow_entryName dir f uri :
  f ≠ [] → 47 ∉ f →
  FileSystem.atOrBelow (dir ++ f) uri = true ↔ FileSystem.entryName dir uri = Some f.
Proof.
  intros Hf Hs. rewrite atOrBelow_spec, entryName_Some. split.
  - intros (rest & -> & Hrest). split; [done|]. split; [done|].
    exists rest. by rewrite <- app_assoc.
  - intros (_ & _ & rest & -> & Hrest). exists rest. by rewrite <- app_assoc.
Qed.

Lemma atOrBelow_entry dir g uri :
  47 ∉ g → FileSystem.atOrBelow (dir ++ g) uri = true →
  FileSystem.entryName dir uri = if decide (g = []) then None else Some g.
Proof.
  intros Hg (rest & -> & Hrest)%atOrBelow_spec. unfold FileSystem.entryName.
  rewrite <- app_assoc, (proj2 (stripPrefix_Some dir _ (g ++ rest)) eq_refl). simpl.
  by rewrite firstSegment_app.
Qed.

Lemma readDirectoryAsync_Resolved dir w files :
  FileSystem.readDirectoryAsync dir w = Resolved files →
  NoDup files
  ∧ ∀ f, f ∈ files ↔ ∃ uri, uri ∈ World.uris w ∧ FileSystem.entryName dir uri = Some f.
Proof.
  unfold FileSystem.readDirectoryAsync. case_bool_decide; [done|].
  intros [= <-]. split; [apply NoDup_remove_dups|].
  intros f. by rewrite elem_of_remove_dups, list_elem_of_omap.
Qed.

Lemma listed_name dir w files f :
  FileSystem.readDirectoryAsync dir w = Resolved files →
  f ∈ files → f ≠ [] ∧ 47 ∉ f.
Proof.
  intros [_ H]%readDirectoryAsync_Resolved Hf.
  apply H in Hf as (uri & _ & (? & ? & _)%entryName_Some). done.
Qed.

Lemma present_spec uri w :
  FileSystem.present uri w = true
  ↔ ∃ e, e ∈ World.disk w ∧ FileSystem.atOrBelow uri e.1 = true.
Proof.
  unfold FileSystem.present, World.uris. rewrite existsb_exists. split.
  - intros (u & (e & -> & He)%list_elem_of_In%list_elem_of_fmap & Hu). eauto.
  - intros (e & He & Hu). exists e.1. split; [|done].
    apply list_elem_of_In. by apply list_elem_of_fmap_2.
Qed.

Lemma present_file uri w : uri ∈ World.uris w → FileSystem.present uri w = true.
Proof.
  intros (e & -> & He)%list_elem_of_fmap. apply present_spec. exists e.
  split; [done|]. apply atOrBelow_spec. exists []. rewrite app_nil_r.
  split; [done|by left].
Qed.

Lemma deleteAsync_frame uri w :
  let w' := (FileSystem.deleteAsync uri w).1 in
  World.documentDirectory w' = World.documentDirectory w
  ∧ World.unreadable w' = World.unreadable w
  ∧ World.locked w' = World.locked w
  ∧ World.console w' = World.console w.
Proof. unfold FileSystem.deleteAsync. by destruct (_ && _). Qed.

Lemma deleteAsync_disk uri w e :
  e ∈ World.disk (FileSystem.deleteAsync uri w).1
  ↔ e ∈ World.disk w
    ∧ ¬ (FileSystem.atOrBelow uri e.1 = true ∧ uri ∉ World.locked w).
Proof.
  unfold FileSystem.deleteAsync.
  destruct (FileSystem.present uri w && _) eqn:H; simpl.
  - apply andb_true_iff in H as [_ Hl%negb_true_iff%bool_decide_eq_false].
    rewrite list_elem_of_filter. destruct (FileSystem.atOrBelow uri e.1).
    + split; [intros [? _]; done|]. intros [_ []]. done.
    + split; [intros [_ ?]; split; [done|]; intros [? _]; done|]. intros [? _]. done.
  - split; [|tauto]. intros He. split; [done|]. intros [Hb Hl].
    apply andb_false_iff in H as [H|H].
    + apply not_true_iff_false in H. apply H, present_spec. eauto.
    + apply negb_false_iff, bool_decide_eq_true in H. done.
Qed.

Lemma deleteAsync_result uri w :
  (FileSystem.deleteAsync uri w).2 =
    if FileSystem.present uri w && negb (bool_decide (uri ∈ World.locked w))
    then Resolved () else Rejected (js "ERR_FILESYSTEM").
Proof. unfold FileSystem.deleteAsync. by destruct (_ && _). Qed.

Lemma mapWorld_delete dir (l : list jsstr) w :
  let w' := (mapWorld (λ f, FileSystem.deleteAsync (dir ++ f)) l w).1 in
  (World.documentDirectory w' = World.documentDirectory w
   ∧ World.unreadable w' = World.unreadable w
   ∧ World.locked w' = World.locked w
   ∧ World.console w' = World.console w)
  ∧ ∀ e, e ∈ World.disk w'
         ↔ e ∈ World.disk w
           ∧ ¬ ∃ f, f ∈ l ∧ FileSystem.atOrBelow (dir ++ f) e.1 = true
                    ∧ dir ++ f ∉ World.locked w.
Proof.
  revert w. induction l as [|f l IH]; intros w; simpl.
  - split; [done|]. intros e. split; [|tauto]. intros ?. split; [done|].
    intros (f & []%elem_of_nil & _).
  - destruct (FileSystem.deleteAsync (dir ++ f) w) as [w1 r1] eqn:E1.
    pose proof (deleteAsync_frame (dir ++ f) w) as F1.
    pose proof (deleteAsync_disk (dir ++ f) w) as D1. rewrite E1 in F1, D1.
    simpl in F1, D1. destruct F1 as (Fd & Fu & Fl & Fc).
    specialize (IH w1).
    destruct (mapWorld (λ f0, FileSystem.deleteAsync (dir ++ f0)) l w1) as [w2 rs].
    simpl in *. destruct IH as [(Gd & Gu & Gl & Gc) IH].
    split; [repeat split; congruence|].
    intros e. rewrite IH, D1, Fl. split.
    + intros [[He Hf] Hl]. split; [done|]. intros (g & Hg & Heq & Hlock).
      apply elem_of_cons in Hg as [->|Hg]; [tauto|]. apply Hl. eauto.
    + intros [He Hn]. split; [split; [done|]|].
      * intros [Heq Hlock]. apply Hn. exists f. split; [left|]; done.
      * intros (g & Hg & Heq & Hlock). apply Hn. exists g. split; [by right|done].
Qed.

Lemma mapWorld_length {A B} (act : A → World.t → World.t * B) l w :
  length (mapWorld act l w).2 = length l.
Proof.
  revert w. induction l as [|a l IH]; intros w; simpl; [done|].
  destruct (act a w) as [w1 b]. specialize (IH w1).
  destruct (mapWorld act l w1). simpl in *. by rewrite IH.
Qed.

Lemma activeFiles_spec playlists v :
  v ∈ activeFiles playlists
  ↔ ∃ p, p ∈ playlists
         ∧ (v = Some (createValidFileURI (Playlist.name (Playlist.meta p)))
            ∨ ∃ t, t ∈ Playlist.tracks (Playlist.data p) ∧ v = getFileName (Some t)).
Proof.
  unfold activeFiles.
  enough (∀ acc, v ∈ foldl (λ all p,
           all ++ [Some (createValidFileURI (Playlist.name (Playlist.meta p)))]
               ++ (getFileName ∘ Some <$> Playlist.tracks (Playlist.data p)))
           acc playlists
         ↔ v ∈ acc ∨ ∃ p, p ∈ playlists
         ∧ (v = Some (createValidFileURI (Playlist.name (Playlist.meta p)))
            ∨ ∃ t, t ∈ Playlist.tracks (Playlist.data p) ∧ v = getFileName (Some t))) as H.
  { rewrite H. rewrite elem_of_nil. tauto. }
  induction playlists as [|p ps IH]; intros acc; simpl.
  - split; [tauto|]. intros [?|(p & []%elem_of_nil & _)]. done.
  - rewrite IH, elem_of_app, elem_of_cons, list_elem_of_fmap. split.
    + intros [[?|[->|(t & -> & ?)]]|(q & ? & ?)]; [by left|right..].
      * exists p. split; [left|]. by left.
      * exists p. split; [left|]. right. by exists t.
      * exists q. split; [by right|done].
    + intros [?|(q & [->|?]%elem_of_cons & Hq)]; [tauto| |right; eauto].
      left. right. destruct Hq as [->|(t & ? & ->)]; [by left|]. right. by exists t.
Qed.
End Device.

Section Purge.
Implicit Types (w : World.t) (f g : jsstr) (e : jsstr * jsstr).

(** The disk after [cleanFiles]: an entry of the disk is gone exactly when
    it is a candidate, or lies below one, and the device does not refuse
    the deletion of that candidate. *)
Lemma cleanFiles_disk getState w files e :
  FileSystem.readDirectoryAsync (World.documentDirectory w) w = Resolved files →
  e ∈ World.disk (after (cleanFiles getState w))
  ↔ e ∈ World.disk w
    ∧ ¬ ∃ f, f ∈ inactiveFiles files (AppState.playlists_data (getState ()))
             ∧ FileSystem.atOrBelow (World.documentDirectory w ++ f) e.1 = true
             ∧ World.documentDirectory w ++ f ∉ World.locked w.
Proof.
  intros Hread. unfold cleanFiles. rewrite Hread.
  pose proof (mapWorld_delete (World.documentDirectory w)
    (inactiveFiles files (AppState.playlists_data (getState ()))) w) as [_ H].
  destruct (mapWorld _ _ w) as [w' ps]. simpl in *. apply H.
Qed.

Lemma inactiveFiles_spec files playlists f :
  f ∈ inactiveFiles files playlists
  ↔ f ∈ files
    ∧ isPlaylist (Some f) || isAudioFile (Some f) = true
    ∧ Some f ∉ activeFiles playlists.
Proof. unfold inactiveFiles. rewrite list_elem_of_filter. tauto. Qed.

(** The listing of a directory: the names, without ['/'], at which
    something is. *)
Lemma listing_spec dir w files :
  FileSystem.readDirectoryAsync dir w = Resolved files →
  ∀ f, f ∈ files ↔ f ≠ [] ∧ (47 ∉ f) ∧ FileSystem.present (dir ++ f) w = true.
Proof.
  intros [_ H]%readDirectoryAsync_Resolved f. rewrite H, present_spec. split.
  - intros (uri & (e & -> & He)%list_elem_of_fmap & Hn).
    pose proof Hn as (Hf & Hs & _)%entryName_Some.
    split; [done|]. split; [done|]. exists e. split; [done|].
    by apply atOrBelow_entryName.
  - intros (Hf & Hs & e & He & Hb). exists e.1.
    split; [by apply list_elem_of_fmap_2|]. by apply atOrBelow_entryName.
Qed.

(** What is at or below a name that is no candidate stays. *)
Lemma cleanFiles_keeps_name getState w g e :
  e ∈ World.disk w →
  47 ∉ g →
  FileSystem.atOrBelow (World.documentDirectory w ++ g) e.1 = true →
  (isPlaylist (Some g) || isAudioFile (Some g) = true →
   Some g ∈ activeFiles (AppState.playlists_data (getState ()))) →
  e ∈ World.disk (after (cleanFiles getState w)).
Proof.
  intros He Hg Hb Hkeep.
  destruct (FileSystem.readDirectoryAsync (World.documentDirectory w) w)
    as [files|err] eqn:Hread.
  - rewrite (cleanFiles_disk _ _ _ _ Hread). split; [done|].
    intros (f & (Hf & Hc & Ha)%inactiveFiles_spec & Hfb & _).
    destruct (listed_name _ _ _ _ Hread Hf) as [Hne Hs].
    apply atOrBelow_entryName in Hfb; [|done..].
    apply atOrBelow_entry in Hb; [|done]. rewrite Hfb in Hb.
    case_decide; [done|]. injection Hb as ->. tauto.
  - unfold cleanFiles. by rewrite Hread.
Qed.

(** C1: an entry of the document directory whose name is neither a
    playlist nor an audio file by its extension is still on the disk after
    [cleanFiles], whatever the playlists of the state are and whatever the
    device refuses: the file of that name with its content, and when the
    name is the one of a directory every file below it. *)
Theorem cleanFiles_keeps_unrelated getState w f e :
  e ∈ World.disk w →
  47 ∉ f →
  FileSystem.atOrBelow (World.documentDirectory w ++ f) e.1 = true →
  isPlaylist (Some f) = false → isAudioFile (Some f) = false →
  e ∈ World.disk (after (cleanFiles getState w)).
Proof.
  intros He Hf Hb Hp Ha. apply (cleanFiles_keeps_name _ _ f); try done.
  intros H. by rewrite Hp, Ha in H.
Qed.

Lemma cleanFiles_keeps_unrelated_witness :
  (js "file:///doc/stray.txt", js "notes")
    ∈ World.disk (after (cleanFiles (λ _, state_empty) device_locked)).
Proof.
  apply (cleanFiles_keeps_unrelated (λ _, state_empty) device_locked
           (js "stray.txt") (js "file:///doc/stray.txt", js "notes"));
    [| |reflexivity..].
  - vm_compute. do 2 apply list_elem_of_further. apply list_elem_of_here.
  - apply (bool_decide_eq_true_1 _). reflexivity.
Defined.

(** C2: when the device refuses no deletion, what [cleanFiles] removes
    from the disk is exactly the entries of the document directory that
    are a playlist or an audio file by extension and whose name is not in
    the active list, a directory among them with all that is below it.
    The entries are the names the listing gives: those without ['/'] at
    which a file or a directory is.  The active list holds, for each
    playlist of the state, its normalised [meta.name] and the file name of
    each of its tracks.  With [p1.mix], [abc_3.mp3] and [stray.txt] on the
    disk nothing is removed when both are active, and only [stray.txt] is
    left when no playlist is tracked; a directory [album.mp3] goes with the
    file in it, a directory [notes] stays with the playlist file in it. *)
Theorem cleanFiles_deletes_inactive :
  (∀ getState w files,
     FileSystem.readDirectoryAsync (World.documentDirectory w) w = Resolved files →
     World.locked w = [] →
     ∀ e, e ∈ World.disk (after (cleanFiles getState w))
          ↔ e ∈ World.disk w
            ∧ ¬ ∃ f, f ∈ files
                     ∧ FileSystem.atOrBelow (World.documentDirectory w ++ f) e.1 = true
                     ∧ isPlaylist (Some f) || isAudioFile (Some f) = true
                     ∧ Some f ∉ activeFiles (AppState.playlists_data (getState ())))
  ∧ (∀ w files,
       FileSystem.readDirectoryAsync (World.documentDirectory w) w = Resolved files →
       ∀ f, f ∈ files
            ↔ f ≠ [] ∧ (47 ∉ f)
              ∧ FileSystem.present (World.documentDirectory w ++ f) w = true)
  ∧ (∀ playlists v,
       v ∈ activeFiles playlists
       ↔ ∃ p, p ∈ playlists
              ∧ (v = Some (createValidFileURI (Playlist.name (Playlist.meta p)))
                 ∨ ∃ t, t ∈ Playlist.tracks (Playlist.data p)
                        ∧ v = getFileName (Some t)))
  ∧ activeFiles (AppState.playlists_data state_tape)
      = [Some (js "p1.mix"); Some (js "abc_3.mp3")]
  ∧ World.disk (after (cleanFiles (λ _, state_tape) device)) = World.disk device
  ∧ World.uris (after (cleanFiles (λ _, state_empty) device))
      = [js "file:///doc/stray.txt"]
  ∧ World.uris (after (cleanFiles (λ _, state_empty) device_folders))
      = [js "file:///doc/notes/old.mix"; js "file:///doc/stray.txt"].
Proof.
  split; [|split; [|split; [apply activeFiles_spec | by vm_compute]]].
  - intros getState w files Hread Hlock e.
    rewrite (cleanFiles_disk _ _ _ _ Hread), Hlock.
    apply and_iff_compat_l, not_iff_compat. split.
    + intros (f & (? & ? & ?)%inactiveFiles_spec & ? & _). by exists f.
    + intros (f & ? & ? & ? & ?). exists f. rewrite inactiveFiles_spec.
      repeat split; try done. apply not_elem_of_nil.
  - intros w files Hread. by apply listing_spec.
Qed.

Lemma cleanFiles_deletes_inactive_witness :
  (js "file:///doc/abc_3.mp3", js "ID3")
    ∉ World.disk (after (cleanFiles (λ _, state_empty) device)).
Proof.
  intros H.
  apply (proj1 (proj1 cleanFiles_deletes_inactive (λ _, state_empty) device
           [js "p1.mix"; js "abc_3.mp3"; js "stray.txt"] eq_refl eq_refl _)) in H.
  apply (proj2 H). exists (js "abc_3.mp3").
  split; [apply list_elem_of_further, list_elem_of_here|].
  split; [reflexivity|]. split; [reflexivity | apply not_elem_of_nil].
Defined.

(** C8 (amended): the promise [cleanFiles] returns resolves whatever the
    device refuses to delete; a deletion is started for every candidate,
    and every candidate the device does not refuse is gone afterwards,
    whether or not others fail; [cleanFiles] prints nothing to the console,
    so a failed deletion leaves nothing but a rejected promise that nobody
    holds. *)
Theorem cleanFiles_best_effort getState w files :
  FileSystem.readDirectoryAsync (World.documentDirectory w) w = Resolved files →
  result (cleanFiles getState w) = Resolved ()
  ∧ length (dropped (cleanFiles getState w))
      = length (inactiveFiles files (AppState.playlists_data (getState ())))
  ∧ (∀ f, f ∈ inactiveFiles files (AppState.playlists_data (getState ())) →
          World.documentDirectory w ++ f ∉ World.locked w →
          World.documentDirectory w ++ f ∉ World.uris (after (cleanFiles getState w)))
  ∧ World.console (after (cleanFiles getState w)) = World.console w.
Proof.
  intros Hread. split; [|split; [|split]].
  - unfold cleanFiles. rewrite Hread. by destruct (mapWorld _ _ w).
  - unfold cleanFiles. rewrite Hread.
    pose proof (mapWorld_length
      (λ f, FileSystem.deleteAsync (World.documentDirectory w ++ f))
      (inactiveFiles files (AppState.playlists_data (getState ()))) w) as H.
    by destruct (mapWorld _ _ w).
  - intros f Hf Hlock (e & Heq & He)%list_elem_of_fmap.
    apply (cleanFiles_disk _ _ _ _ Hread) in He as [_ He]. apply He. exists f.
    split; [done|]. split; [|done]. apply atOrBelow_spec. exists [].
    rewrite app_nil_r. split; [done|by left].
  - unfold cleanFiles. rewrite Hread.
    pose proof (mapWorld_delete (World.documentDirectory w)
      (inactiveFiles files (AppState.playlists_data (getState ()))) w) as [H _].
    destruct (mapWorld _ _ w). simpl in *. tauto.
Qed.

Lemma cleanFiles_best_effort_witness :
  result (cleanFiles (λ _, state_empty) device_locked) = Resolved ()
  ∧ World.console (after (cleanFiles (λ _, state_empty) device_locked)) = [].
Proof.
  destruct (cleanFiles_best_effort (λ _, state_empty) device_locked
              [js "p1.mix"; js "abc_3.mp3"; js "stray.txt"] eq_refl)
    as (Hres & _ & _ & Hlog).
  exact (conj Hres Hlog).
Defined.

(** C8 as stated fails: with [abc_3.mp3] locked and no playlist tracked,
    the deletion of [p1.mix] succeeds, the one of [abc_3.mp3] is rejected,
    the file stays, and the console is as empty as before. *)
Lemma cleanFiles_failure_not_logged :
  dropped (cleanFiles (λ _, state_empty) device_locked)
    = [Resolved (); Rejected (js "ERR_FILESYSTEM")]
  ∧ World.uris (after (cleanFiles (λ _, state_empty) device_locked))
    = [js "file:///doc/abc_3.mp3"; js "file:///doc/stray.txt"]
  ∧ World.console (after (cleanFiles (λ _, state_empty) device_locked))
    = World.console device_locked
  ∧ World.console device_locked = [].
Proof. by vm_compute. Qed.
End Purge.

(** ** The listing normaliser *)

Section ExtensionOfName.
Implicit Types (s stem ext : jsstr) (c sep : N).

Lemma split_no_sep sep s : sep ∉ s → split sep s = [s].
Proof.
  induction s as [|c s IH]; [done|]. intros [Hc Hs]%not_elem_of_cons. simpl.
  rewrite decide_False by congruence. by rewrite (IH Hs).
Qed.

Lemma split_app_sep sep s1 s2 :
  split sep (s1 ++ sep :: s2) = split sep s1 ++ split sep s2.
Proof.
  induction s1 as [|c s1 IH]; simpl.
  - by rewrite decide_True.
  - case_decide; [by rewrite IH|]. rewrite IH.
    pose proof (split_not_nil sep s1). by destruct (split sep s1).
Qed.

Lemma getExtension_dot stem ext :
  46 ∉ ext → getExtension (Some (stem ++ 46 :: ext)) = ext.
Proof.
  intros Hext. unfold getExtension, pop. simpl.
  rewrite split_app_sep, (split_no_sep _ _ Hext), last_snoc. done.
Qed.

Lemma getExtension_bare s : 46 ∉ s → getExtension (Some s) = s.
Proof. intros Hs. unfold getExtension, pop. simpl. by rewrite (split_no_sep _ _ Hs). Qed.

End ExtensionOfName.

Section Listing.
Implicit Types (file entry : Entry.t) (v : option jsstr).

(** C9: the three derived booleans of [transformFile] depend on the entry's
    tag and the extension of its name only.  The extension of a name is
    what follows its last dot, and the whole name when it has no dot; an
    entry without a name has the empty extension.  [isAudioFile] holds
    exactly when the extension is [mp3], [m4a], [ovw] or [wav],
    [isPlaylist] exactly when it is [mix], [isFolder] exactly when the tag
    is [folder]. *)
Theorem transformFile_classification file :
  (∀ stem ext : jsstr,
     Entry.name file = Some (stem ++ js "." ++ ext) → 46 ∉ ext →
     (File.isAudioFile (transformFile file) = true
      ↔ ext ∈ [js "mp3"; js "m4a"; js "ovw"; js "wav"])
     ∧ (File.isPlaylist (transformFile file) = true ↔ ext = js "mix"))
  ∧ (∀ bare : jsstr,
       Entry.name file = Some bare → 46 ∉ bare →
       (File.isAudioFile (transformFile file) = true
        ↔ bare ∈ [js "mp3"; js "m4a"; js "ovw"; js "wav"])
       ∧ (File.isPlaylist (transformFile file) = true ↔ bare = js "mix"))
  ∧ (Entry.name file = None →
     File.isAudioFile (transformFile file) = false
     ∧ File.isPlaylist (transformFile file) = false)
  ∧ (File.isAudioFile (transformFile file) = true
     ↔ getExtension (Entry.name file) ∈ [js "mp3"; js "m4a"; js "ovw"; js "wav"])
  ∧ (File.isPlaylist (transformFile file) = true
     ↔ getExtension (Entry.name file) = js "mix")
  ∧ (File.isFolder (transformFile file) = true ↔ Entry.tag file = js "folder")
  ∧ ∀ file',
      Entry.tag file' = Entry.tag file →
      getExtension (Entry.name file') = getExtension (Entry.name file) →
      File.isAudioFile (transformFile file') = File.isAudioFile (transformFile file)
      ∧ File.isPlaylist (transformFile file') = File.isPlaylist (transformFile file)
      ∧ File.isFolder (transformFile file') = File.isFolder (transformFile file).
Proof.
  assert (Ha : ∀ ext : jsstr,
            (bool_decide (ext ∈ audioExtensions) = true
             ↔ ext ∈ [js "mp3"; js "m4a"; js "ovw"; js "wav"])
            ∧ (bool_decide (ext = js "mix") = true ↔ ext = js "mix")).
  { intros ext. by rewrite !bool_decide_eq_true. }
  unfold transformFile, isAudioFile, isPlaylist.
  cbn [File.isAudioFile File.isPlaylist File.isFolder].
  split; [|split; [|split]].
  - intros stem ext Hname Hext. rewrite Hname.
    change (stem ++ js "." ++ ext) with (stem ++ 46 :: ext).
    rewrite (getExtension_dot stem ext Hext). apply Ha.
  - intros bare Hname Hbare. rewrite Hname.
    rewrite (getExtension_bare bare Hbare). apply Ha.
  - by intros ->.
  - rewrite !bool_decide_eq_true. split; [done|]. split; [done|]. split; [done|].
    intros file' Htag Hext. by rewrite Htag, Hext.
Qed.

Lemma transformFile_classification_witness :
  File.isAudioFile (transformFile entry_song) = true
  ∧ File.isPlaylist (transformFile entry_song) = false.
Proof.
  destruct (proj1 (transformFile_classification entry_song)
              (js "My Song") (js "mp3") eq_refl) as [Ha Hp].
  - apply (bool_decide_unpack _). vm_compute. exact I.
  - split; [apply Ha, list_elem_of_here|].
    apply not_true_is_false. intros H. apply Hp in H. discriminate H.
Defined.

Lemma newSet_spec {A} `{EqDecision A} (l : list A) :
  NoDup (newSet l) ∧ ∀ x, x ∈ newSet l ↔ x ∈ l.
Proof.
  unfold newSet.
  enough (∀ acc, NoDup acc →
            NoDup (foldl (λ s x, if bool_decide (x ∈ s) then s else s ++ [x]) acc l)
            ∧ ∀ x, x ∈ foldl (λ s x, if bool_decide (x ∈ s) then s else s ++ [x]) acc l
                   ↔ x ∈ acc ∨ x ∈ l) as H.
  { destruct (H [] (NoDup_nil_2)) as [Hn Hx]. split; [done|].
    intros x. rewrite Hx, elem_of_nil. tauto. }
  induction l as [|a l IH]; intros acc Hacc; simpl.
  - split; [done|]. intros x. rewrite elem_of_nil. tauto.
  - case_bool_decide as Ha.
    + destruct (IH acc Hacc) as [Hn Hx]. split; [done|].
      intros x. rewrite Hx, elem_of_cons. split; [tauto|].
      intros [?|[->|?]]; tauto.
    + assert (NoDup (acc ++ [a])) as Hacc'.
      { apply NoDup_app. split; [done|]. split; [|apply NoDup_singleton].
        intros x Hx ->%list_elem_of_singleton. done. }
      destruct (IH _ Hacc') as [Hn Hx]. split; [done|].
      intros x. rewrite Hx, elem_of_app, list_elem_of_singleton, elem_of_cons. tauto.
Qed.

Lemma Boolean_true v : Boolean v = true ↔ ∃ s, v = Some s ∧ s ≠ [].
Proof.
  destruct v as [[|c s]|]; simpl; split; try done.
  - intros (s & [= <-] & ?). done.
  - intros _. by exists (c :: s).
  - intros (s & [=] & _).
Qed.

Lemma getModifiedBy_Some entry s :
  getModifiedBy entry = Some s
  ↔ ∃ sharing, Entry.sharing_info entry = Some sharing
               ∧ Entry.modified_by sharing = Some s.
Proof.
  unfold getModifiedBy. destruct (Entry.sharing_info entry) as [sharing|]; simpl.
  - split; [by exists sharing|]. by intros (? & [= <-] & ?).
  - split; [done|]. by intros (? & ? & _).
Qed.

(** C10: the result of [getModifiedUsersFromEntries] has no duplicates and
    holds exactly the non-empty values found at [sharing_info.modified_by]
    in the entries: a value is in the result exactly when it is a non-empty
    string that some entry carries there.  An entry without [sharing_info]
    or without [modified_by] has no [modified_by] value and adds nothing
    to the result; an entry that has both has that value. *)
Theorem getModifiedUsersFromEntries_distinct entries :
  NoDup (getModifiedUsersFromEntries entries)
  ∧ (∀ v, v ∈ getModifiedUsersFromEntries entries
          ↔ ∃ s, v = Some s ∧ s ≠ []
                 ∧ ∃ entry sharing,
                     entry ∈ entries
                     ∧ Entry.sharing_info entry = Some sharing
                     ∧ Entry.modified_by sharing = Some s)
  ∧ (∀ entry,
       Entry.sharing_info entry = None
       ∨ Entry.sharing_info entry = Some (Entry.mkSharing None) →
       getModifiedBy entry = None
       ∧ ∀ v, v ∈ getModifiedUsersFromEntries (entry :: entries)
              ↔ v ∈ getModifiedUsersFromEntries entries)
  ∧ ∀ entry s,
      Entry.sharing_info entry = Some (Entry.mkSharing (Some s)) →
      getModifiedBy entry = Some s
      ∧ (s ≠ [] → Some s ∈ getModifiedUsersFromEntries (entry :: entries)).
Proof.
  assert (Hin : ∀ es v, v ∈ getModifiedUsersFromEntries es
          ↔ ∃ s, v = Some s ∧ s ≠ []
                 ∧ ∃ entry, entry ∈ es ∧ getModifiedBy entry = Some s).
  { intros es v. unfold getModifiedUsersFromEntries.
    rewrite list_elem_of_filter, Boolean_true.
    rewrite (proj2 (newSet_spec _)), list_elem_of_fmap. split.
    - intros [(s & -> & ?) (entry & ? & ?)]. exists s. eauto.
    - intros (s & -> & ? & entry & ? & ?). split; [by exists s|]. by exists entry. }
  split; [|split; [|split]].
  - unfold getModifiedUsersFromEntries. apply NoDup_filter, newSet_spec.
  - intros v. rewrite Hin. split.
    + intros (s & -> & ? & entry & ? & (sharing & ? & ?)%getModifiedBy_Some).
      exists s. split; [done|]. split; [done|]. by exists entry, sharing.
    + intros (s & -> & ? & entry & sharing & ? & ? & ?).
      exists s. split; [done|]. split; [done|]. exists entry. split; [done|].
      apply getModifiedBy_Some. by exists sharing.
  - intros entry Hmissing.
    assert (getModifiedBy entry = None) as Hnone.
    { unfold getModifiedBy. by destruct Hmissing as [-> | ->]. }
    split; [done|]. intros v. rewrite !Hin.
    split; intros (s & -> & ? & e & He & ?); exists s; repeat split; try done.
    + apply elem_of_cons in He as [->|He]; [congruence|]. by exists e.
    + exists e. split; [by right|done].
  - intros entry s Hs.
    assert (getModifiedBy entry = Some s) as Hby.
    { unfold getModifiedBy. by rewrite Hs. }
    split; [done|]. intros Hne. apply Hin. exists s. split; [done|].
    split; [done|]. exists entry. split; [left|done].
Qed.

Lemma getModifiedUsersFromEntries_distinct_witness :
  (getModifiedBy entry_folder = None
   ∧ ∀ v, v ∈ getModifiedUsersFromEntries [entry_folder; entry_song; entry_song]
          ↔ v ∈ getModifiedUsersFromEntries [entry_song; entry_song])
  ∧ getModifiedBy entry_song = Some (js "dbid:alice")
  ∧ Some (js "dbid:alice")
      ∈ getModifiedUsersFromEntries [entry_song; entry_other_song; entry_song].
Proof.
  split.
  - exact (proj1 (proj2 (proj2
             (getModifiedUsersFromEntries_distinct [entry_song; entry_song])))
             entry_folder (or_introl eq_refl)).
  - destruct (proj2 (proj2 (proj2
               (getModifiedUsersFromEntries_distinct [entry_other_song; entry_song])))
               entry_song (js "dbid:alice") eq_refl) as [Hby Hin].
    split; [exact Hby|]. apply Hin. discriminate.
Defined.
End Listing.

(** ** Download status from the disk *)

Section Downloaded.
Implicit Types (t : Track.t) (w : World.t).

(** C5: [isDownloaded] resolves with a copy of the track whose
    [downloadStatus] is 100 when the device reports that the track's path
    exists (a file there, or a directory) and [null] otherwise, every other
    property as in the track; a file at the path gives 100; the answer is
    the same on any device that agrees on the existence of that one path,
    and on any device with the same URIs, whatever the files hold. *)
Theorem isDownloaded_existence_only t w :
  ∃ path,
    getFilePath w (Some t) = Some path
    ∧ isDownloaded t w =
        Resolved {| Track.id := Track.id t;
                    Track.rev := Track.rev t;
                    Track.name := Track.name t;
                    Track.downloadStatus :=
                      if FileSystem.present path w then Some 100%Z else None;
                    Track.rest := Track.rest t |}
    ∧ (path ∈ World.uris w →
       ∃ t', isDownloaded t w = Resolved t' ∧ Track.downloadStatus t' = Some 100%Z)
    ∧ (∀ w', World.documentDirectory w' = World.documentDirectory w →
             FileSystem.present path w' = FileSystem.present path w →
             isDownloaded t w' = isDownloaded t w)
    ∧ ∀ w', World.documentDirectory w' = World.documentDirectory w →
            World.uris w' = World.uris w →
            isDownloaded t w' = isDownloaded t w.
Proof.
  exists (World.documentDirectory w ++ template (getFileName (Some t))).
  split; [reflexivity|]. split; [reflexivity|].
  assert (∀ w', World.documentDirectory w' = World.documentDirectory w →
    FileSystem.present (World.documentDirectory w ++ template (getFileName (Some t))) w'
    = FileSystem.present (World.documentDirectory w ++ template (getFileName (Some t))) w →
    isDownloaded t w' = isDownloaded t w) as Hsame.
  { intros w' Hdir Hex. unfold isDownloaded, getFilePath, FileSystem.getInfoAsync.
    cbn [FileSystem.exists_]. by rewrite Hdir, Hex. }
  split; [|split; [exact Hsame|]].
  - intros Hin. eexists. split; [reflexivity|].
    cbn [Track.downloadStatus]. by rewrite (present_file _ _ Hin).
  - intros w' Hdir Huris. apply Hsame; [done|]. unfold FileSystem.present.
    by rewrite Huris.
Qed.

Lemma isDownloaded_existence_only_witness :
  isDownloaded song device_locked = isDownloaded song device
  ∧ isDownloaded song device
    = Resolved (Track.mk (js "abc") (js "3") (Some (js "My Song.mp3")) (Some 100%Z) []).
Proof.
  destruct (isDownloaded_existence_only song device) as (path & Hpath & _ & _ & Hsame & _).
  injection Hpath as <-. split; [|reflexivity].
  apply Hsame; [reflexivity|]. reflexivity.
Defined.
End Downloaded.

(** ** The [Dropbox-API-Arg] header *)

Section Header.
Implicit Types (s remote : jsstr) (c : N).

Lemma hexDigits_zero fuel acc : hexDigits fuel 0 acc = acc.
Proof. by destruct fuel. Qed.

(** Enough fuel is as good as any other amount that is enough. *)
Lemma hexDigits_fuel f1 f2 n acc :
  n < 16 ^ N.of_nat f1 → n < 16 ^ N.of_nat f2 →
  hexDigits f1 n acc = hexDigits f2 n acc.
Proof.
  revert f2 n acc. induction f1 as [|f1 IH]; intros f2 n acc H1 H2.
  - change (16 ^ N.of_nat 0) with 1 in H1. assert (n = 0) as -> by lia.
    by rewrite !hexDigits_zero.
  - destruct (N.eq_dec n 0) as [->|Hn]; [by rewrite !hexDigits_zero|].
    destruct f2 as [|f2].
    { change (16 ^ N.of_nat 0) with 1 in H2. lia. }
    simpl. destruct (N.eqb_spec n 0); [done|].
    rewrite Nat2N.inj_succ, N.pow_succ_r' in H1, H2.
    apply IH; by apply N.Div0.div_lt_upper_bound.
Qed.

Lemma toString16_fuel n : n ≠ 0 → n < 65536 → toString16 n = hexDigits 4 n [].
Proof.
  intros Hn Hlt. unfold toString16. destruct (N.eqb_spec n 0); [done|].
  apply hexDigits_fuel; [|done].
  rewrite N2Nat.id. pose proof (N.size_gt n) as Hs.
  eapply N.lt_le_trans; [exact Hs|]. apply N.pow_le_mono_l. lia.
Qed.

(** The replacement function of [cleanHeader] on a code unit: always four
    digits, the ones of [UnicodeEscape]. *)
Lemma escapeChar_UnicodeEscape c : c < 65536 → escapeChar c = UnicodeEscape c.
Proof.
  intros Hc. unfold escapeChar, UnicodeEscape.
  change 4096 with (16 * (16 * 16)). change 256 with (16 * 16).
  rewrite <- !N.Div0.div_div.
  destruct (N.eq_dec c 0) as [->|H0]; [done|].
  rewrite toString16_fuel by done. simpl.
  destruct (N.eqb_spec c 0); [done|].
  destruct (N.eqb_spec (c / 16) 0) as [E1|_].
  { by rewrite E1. }
  destruct (N.eqb_spec (c / 16 / 16) 0) as [E2|_].
  { by rewrite E2. }
  destruct (N.eqb_spec (c / 16 / 16 / 16) 0) as [E3|_].
  { by rewrite E3. }
  done.
Qed.

Lemma hexDigit_ascii d : d < 16 → 48 ≤ hexDigit d < 103.
Proof. intros Hd. unfold hexDigit. destruct (d <? 10) eqn:E; lia. Qed.

Lemma UnicodeEscape_ascii c : Forall (λ x, x < 127) (UnicodeEscape c).
Proof.
  unfold UnicodeEscape. repeat constructor; try lia.
  all: match goal with |- hexDigit ?d < _ =>
         pose proof (hexDigit_ascii d (N.mod_lt _ 16 ltac:(done))); lia end.
Qed.

Lemma replace_ascii f s : Forall (λ x, x < 127) s → replace_7f_ffff f s = s.
Proof.
  induction 1 as [|c s Hc _ IH]; [done|]. unfold replace_7f_ffff in *. csimpl.
  rewrite IH. unfold inClass_7f_ffff. simpl in Hc.
  destruct (N.leb_spec 127 c); [lia | done].
Qed.

Lemma replace_app f s1 s2 :
  replace_7f_ffff f (s1 ++ s2) = replace_7f_ffff f s1 ++ replace_7f_ffff f s2.
Proof. unfold replace_7f_ffff. apply bind_app. Qed.

Lemma replace_cons f c s :
  replace_7f_ffff f (c :: s) =
    (if inClass_7f_ffff c then f c else [c]) ++ replace_7f_ffff f s.
Proof. done. Qed.

Lemma surrogate_high c :
  isLeadingSurrogate c || isTrailingSurrogate c = true → 127 ≤ c.
Proof.
  unfold isLeadingSurrogate, isTrailingSurrogate.
  destruct (N.leb_spec 55296 c), (N.leb_spec 56320 c); simpl; try done; lia.
Qed.

Lemma inClass_from7F c : c < 65536 → inClass_7f_ffff c = (127 <=? c).
Proof.
  intros Hc. unfold inClass_7f_ffff.
  destruct (N.leb_spec c 65535); [|lia]. apply andb_true_r.
Qed.

(** One code unit through [quoteUnit] and then through the replacement. *)
Lemma quoteUnit_header c :
  c < 65536 → replace_7f_ffff escapeChar (quoteUnit c) = headerUnit c.
Proof.
  intros Hc. unfold headerUnit, quoteUnit.
  repeat (case_decide; [subst c; reflexivity|]).
  destruct ((c <? 32) || isLeadingSurrogate c || isTrailingSurrogate c) eqn:E.
  - rewrite replace_ascii by apply UnicodeEscape_ascii.
    by destruct (127 <=? c).
  - rewrite replace_cons, (inClass_from7F _ Hc).
    destruct (127 <=? c); [|done].
    rewrite escapeChar_UnicodeEscape by done. apply app_nil_r.
Qed.

Lemma wellFormed_cons c s :
  wellFormed (c :: s) = true ↔ c < 65536 ∧ wellFormed s = true.
Proof.
  unfold wellFormed. simpl. rewrite andb_true_iff, N.ltb_lt. done.
Qed.

Lemma quoteUnits_cons c d s :
  quoteUnits (c :: d :: s) =
    if isLeadingSurrogate c && isTrailingSurrogate d
    then c :: d :: quoteUnits s
    else quoteUnit c ++ quoteUnits (d :: s).
Proof. done. Qed.

(** The quoted body through the replacement, code unit by code unit:
    whether a surrogate was copied as half of a pair or escaped alone makes
    no difference to the header. *)
Lemma quoteUnits_header s :
  wellFormed s = true → replace_7f_ffff escapeChar (quoteUnits s) = s ≫= headerUnit.
Proof.
  enough (∀ n s, (length s ≤ n)%nat → wellFormed s = true →
            replace_7f_ffff escapeChar (quoteUnits s) = s ≫= headerUnit) as H.
  { by apply (H (length s)). }
  clear s. intros n. induction n as [|n IH]; intros s Hlen Hwf.
  { destruct s; [done | simpl in Hlen; lia]. }
  destruct s as [|c [|d s]]; [done| |].
  - apply wellFormed_cons in Hwf as [Hc _]. simpl.
    rewrite quoteUnit_header by done. by rewrite app_nil_r.
  - apply wellFormed_cons in Hwf as [Hc Hwf].
    rewrite quoteUnits_cons.
    destruct (isLeadingSurrogate c && isTrailingSurrogate d) eqn:E.
    + apply andb_true_iff in E as [Ec Ed].
      apply wellFormed_cons in Hwf as [Hd Hwf].
      rewrite !replace_cons, !inClass_from7F by done.
      assert (127 ≤ c) as Hc' by (apply surrogate_high; by rewrite Ec).
      assert (127 ≤ d) as Hd' by (apply surrogate_high; rewrite Ed; apply orb_true_r).
      rewrite !(proj2 (N.leb_le _ _)) by done.
      rewrite !escapeChar_UnicodeEscape by done.
      rewrite (IH s) by (done || (simpl in Hlen; lia)).
      rewrite !bind_cons. unfold headerUnit.
      by rewrite !(proj2 (N.leb_le _ _)) by done.
    + rewrite replace_app, quoteUnit_header by done.
      rewrite (IH (d :: s)) by (done || (simpl in Hlen |- *; lia)). by rewrite bind_cons.
Qed.

Lemma headerUnit_ascii c : Forall (λ x, x < 127) (headerUnit c).
Proof.
  unfold headerUnit. destruct (N.leb_spec 127 c); [apply UnicodeEscape_ascii|].
  unfold quoteUnit. repeat (case_decide; [repeat constructor; lia|]).
  destruct (_ || _); [apply UnicodeEscape_ascii|]. repeat constructor. lia.
Qed.

Lemma cleanHeader_units remote :
  wellFormed remote = true →
  cleanHeader (ApiArg.mk remote) =
    js "{" ++ [34] ++ js "path" ++ [34] ++ js ":" ++ [34]
    ++ (remote ≫= headerUnit) ++ [34] ++ js "}".
Proof.
  intros Hwf. unfold cleanHeader, JSON_stringify, QuoteJSONString. simpl ApiArg.path.
  rewrite !replace_app, (quoteUnits_header remote) by done.
  rewrite <- !(assoc_L (++)). reflexivity.
Qed.

Lemma forallb_ltb_Forall (bound : N) s :
  forallb (λ c, c <? bound) s = true → Forall (λ c, c < bound) s.
Proof.
  rewrite forallb_forall, Forall_forall. intros H c Hc.
  apply N.ltb_lt, H, list_elem_of_In, Hc.
Qed.

Lemma quoteUnits_bound s :
  wellFormed s = true → Forall (λ c, c < 65536) (quoteUnits s).
Proof.
  enough (∀ n s, (length s ≤ n)%nat → wellFormed s = true →
            Forall (λ c, c < 65536) (quoteUnits s)) as H.
  { by apply (H (length s)). }
  clear s. intros n. induction n as [|n IH]; intros s Hlen Hwf.
  { destruct s; [apply Forall_nil_2 | simpl in Hlen; lia]. }
  assert (∀ c, c < 65536 → Forall (λ x, x < 65536) (quoteUnit c)) as Hq.
  { intros c Hc. unfold quoteUnit.
    repeat (case_decide; [repeat constructor; lia|]).
    destruct (_ || _); [|repeat constructor; lia].
    eapply Forall_impl; [apply UnicodeEscape_ascii|]. simpl. lia. }
  destruct s as [|c [|d s]]; [apply Forall_nil_2| |].
  { apply wellFormed_cons in Hwf as [Hc _]. by apply Hq. }
  pose proof Hwf as Hwf'. apply wellFormed_cons in Hwf as [Hc Hwf].
  rewrite quoteUnits_cons.
  destruct (isLeadingSurrogate c && isTrailingSurrogate d).
  - apply wellFormed_cons in Hwf as [Hd Hwf].
    repeat constructor; try done. apply IH; [simpl in Hlen; lia | done].
  - apply Forall_app. split; [by apply Hq|].
    apply IH; [simpl in Hlen |- *; lia | done].
Qed.

Lemma cleanHeader_from7F remote :
  wellFormed remote = true →
  cleanHeader (ApiArg.mk remote) = escapeFrom7F (JSON_stringify (ApiArg.mk remote)).
Proof.
  intros Hwf. unfold cleanHeader, escapeFrom7F, replace_7f_ffff.
  assert (Forall (λ c, c < 65536) (JSON_stringify (ApiArg.mk remote))) as Hb.
  { unfold JSON_stringify, QuoteJSONString. simpl ApiArg.path. rewrite !Forall_app.
    repeat match goal with |- _ ∧ _ => split end;
      first [by apply quoteUnits_bound | by apply forallb_ltb_Forall]. }
  induction Hb as [|c s Hc _ IH]; [done|].
  rewrite !bind_cons, IH, (inClass_from7F _ Hc).
  destruct (127 <=? c); [|done]. by rewrite escapeChar_UnicodeEscape.
Qed.

(** C6 (amended): the [Dropbox-API-Arg] header [createDownloader] builds
    for a remote path is the JSON encoding of [{path: remote}] with every
    UTF-16 code unit from U+007F on (DEL included, a code point above
    U+FFFF as its two surrogates) replaced by a backslash, [u] and exactly
    four hexadecimal digits; every code unit of the header is below U+007F;
    for [/É] the header is the JSON text whose string holds [\u00c9]. *)
Theorem createDownloader_header {C} (w : World.t) (local remote : jsstr)
    (state : AppState.t) (progress : C) :
  wellFormed remote = true →
  FileSystem.Dropbox_API_Arg (createDownloader w local remote state progress)
    = escapeFrom7F (JSON_stringify (ApiArg.mk remote))
  ∧ FileSystem.Dropbox_API_Arg (createDownloader w local remote state progress)
    = js "{" ++ [34] ++ js "path" ++ [34] ++ js ":" ++ [34]
      ++ (remote ≫= headerUnit) ++ [34] ++ js "}"
  ∧ Forall (λ c, c < 127)
      (FileSystem.Dropbox_API_Arg (createDownloader w local remote state progress))
  ∧ FileSystem.Dropbox_API_Arg (createDownloader w local remote_E_acute state progress)
    = js "{" ++ [34] ++ js "path" ++ [34] ++ js ":" ++ [34]
      ++ js "/\u00c9" ++ [34] ++ js "}".
Proof.
  intros Hwf. simpl. split; [by apply cleanHeader_from7F|].
  split; [by apply cleanHeader_units|]. split; [|reflexivity].
  rewrite cleanHeader_units by done. rewrite !Forall_app.
  repeat match goal with |- _ ∧ _ => split end;
    try (by apply forallb_ltb_Forall).
  apply Forall_bind, Forall_forall. intros c _. apply headerUnit_ascii.
Qed.

Lemma createDownloader_header_witness :
  FileSystem.Dropbox_API_Arg
    (createDownloader device (js "abc_3.mp3") remote_E_acute state_tape ())
  = escapeFrom7F (JSON_stringify (ApiArg.mk remote_E_acute)).
Proof.
  exact (proj1 (createDownloader_header device (js "abc_3.mp3") remote_E_acute
                  state_tape () eq_refl)).
Defined.

(** C6 as stated fails at DEL: U+007F is not above U+007F, and the header
    escapes it all the same. *)
Lemma createDownloader_header_escapes_DEL :
  FileSystem.Dropbox_API_Arg
    (createDownloader device (js "abc_3.mp3") [127] state_tape ())
  ≠ escapeAbove7F (JSON_stringify (ApiArg.mk [127]))
  ∧ FileSystem.Dropbox_API_Arg
      (createDownloader device (js "abc_3.mp3") [127] state_tape ())
    = js "{" ++ [34] ++ js "path" ++ [34] ++ js ":" ++ [34]
      ++ js "\u007f" ++ [34] ++ js "}"
  ∧ escapeAbove7F (JSON_stringify (ApiArg.mk [127]))
    = js "{" ++ [34] ++ js "path" ++ [34] ++ js ":" ++ [34]
      ++ [127] ++ [34] ++ js "}".
Proof. split; [discriminate | split; reflexivity]. Qed.
End Header.

(** ** Supersession of download sessions *)

Section Supersession.
Import DownloadManager.
Context (w : World.t) (state : AppState.t).
Implicit Types (m : DownloadManager.t) (s : session) (i : nat) (id : jsstr).

Lemma setPhase_sids i p ss : sid <$> setPhase i p ss = sid <$> ss.
Proof.
  unfold setPhase. rewrite <- list_fmap_compose. apply list_fmap_ext.
  intros _ s _. simpl. by case_decide.
Qed.

Lemma elem_of_setPhase i p ss s' :
  s' ∈ setPhase i p ss
  ↔ ∃ s, s ∈ ss ∧ sid s' = sid s ∧ track s' = track s ∧ request s' = request s
         ∧ phase_of s' = if decide (sid s = i) then p else phase_of s.
Proof.
  unfold setPhase. rewrite list_elem_of_fmap. split.
  - intros (s & -> & Hs). exists s. split; [done|]. by case_decide.
  - intros (s & Hs & H1 & H2 & H3 & H4). exists s. split; [|done].
    destruct s', s; simpl in *. case_decide; simpl; congruence.
Qed.

Lemma sids_unique_eq ss s s' :
  NoDup (sid <$> ss) → s ∈ ss → s' ∈ ss → sid s = sid s' → s = s'.
Proof.
  induction ss as [|a ss IH]; [by intros _ ?%elem_of_nil|].
  rewrite fmap_cons, NoDup_cons. intros [Ha Hnd] Hs Hs' Heq.
  apply elem_of_cons in Hs as [->|Hs]; apply elem_of_cons in Hs' as [->|Hs'].
  - done.
  - exfalso. apply Ha. rewrite Heq. by apply list_elem_of_fmap_2.
  - exfalso. apply Ha. rewrite <- Heq. by apply list_elem_of_fmap_2.
  - by apply IH.
Qed.

Lemma trackOf_Some m i s :
  NoDup (sid <$> sessions m) → s ∈ sessions m → sid s = i → trackOf i m = Some (track s).
Proof.
  intros Hnd Hs Hi. unfold trackOf.
  destruct (List.find _ (sessions m)) as [s'|] eqn:E; simpl.
  - apply find_some in E as [Hin Hb]. apply bool_decide_eq_true in Hb.
    apply list_elem_of_In in Hin. f_equal. f_equal.
    apply (sids_unique_eq (sessions m)); congruence.
  - exfalso. apply list_elem_of_In in Hs.
    pose proof (find_none _ _ E s Hs) as Hb. simpl in Hb.
    by apply bool_decide_eq_false in Hb.
Qed.

Lemma trackOf_elem m i id :
  trackOf i m = Some id → ∃ s, s ∈ sessions m ∧ sid s = i ∧ track s = id.
Proof.
  unfold trackOf. destruct (List.find _ (sessions m)) as [s|] eqn:E; [|done].
  intros [= <-]. apply find_some in E as [Hin Hb]. apply bool_decide_eq_true in Hb.
  exists s. by rewrite list_elem_of_In.
Qed.

Lemma consistent_init : consistent init.
Proof.
  split; simpl.
  - by intros s ?%elem_of_nil.
  - constructor.
  - by intros s ?%elem_of_nil.
  - intros id i. by rewrite lookup_empty.
Qed.

Lemma consistent_download m tr remote :
  consistent m → consistent (download w state tr remote m).
Proof.
  intros [Hfresh Huniq Hact Hinfl].
  set (id := Track.id tr).
  assert (Hprior : ∀ s', s' ∈ match active m !! id with
                              | Some i => setPhase i Cancelled (sessions m)
                              | None => sessions m
                              end →
            ∃ s, s ∈ sessions m ∧ sid s' = sid s ∧ track s' = track s
                 ∧ (phase_of s' = InFlight → phase_of s = InFlight
                                              ∧ active m !! id ≠ Some (sid s))).
  { intros s'. destruct (active m !! id) as [i|] eqn:E.
    - intros (s & Hs & H1 & H2 & _ & H4)%elem_of_setPhase. exists s.
      repeat split; try done; case_decide; congruence.
    - intros Hs. exists s'. repeat split; try done. }
  assert (Hsids : sid <$> match active m !! id with
                          | Some i => setPhase i Cancelled (sessions m)
                          | None => sessions m
                          end = sid <$> sessions m).
  { destruct (active m !! id); [apply setPhase_sids | done]. }
  unfold download. fold id. split; cbn [sessions active next status].
  - intros s' [->|Hs']%elem_of_cons; simpl; [lia|].
    destruct (Hprior _ Hs') as (s & Hs & -> & _). specialize (Hfresh s Hs). lia.
  - rewrite fmap_cons, Hsids. apply NoDup_cons. split; [|done]. simpl.
    intros (s & Heq & Hs)%list_elem_of_fmap. specialize (Hfresh s Hs). lia.
  - intros s' [->|Hs']%elem_of_cons Hph; simpl.
    + by rewrite lookup_insert_eq.
    + destruct (Hprior _ Hs') as (s & Hs & Hsid & Htr & Hp).
      destruct (Hp Hph) as [Hph' Hne]. rewrite Hsid, Htr.
      specialize (Hact s Hs Hph').
      rewrite lookup_insert_ne; [done|]. intros Heq. apply Hne. by rewrite Heq.
  - intros id' i. destruct (decide (id = id')) as [<-|Hne].
    + rewrite lookup_insert_eq. intros [= <-]. eexists. split; [left|]. done.
    + rewrite lookup_insert_ne by done. intros Hi.
      destruct (Hinfl id' i Hi) as (s & Hs & Hsid & Htr & Hph).
      destruct (active m !! id) as [j|] eqn:E.
      * exists (if decide (sid s = j)
                then mkSession (sid s) (track s) (request s) Cancelled else s).
        split.
        { right. unfold setPhase. apply list_elem_of_fmap. by exists s. }
        case_decide as Hj; [|done]. exfalso.
        destruct (Hinfl id j E) as (s2 & Hs2 & Hsid2 & Htr2 & _).
        assert (s = s2) by (apply (sids_unique_eq (sessions m)); congruence).
        subst s2. congruence.
      * exists s. split; [by right|done].
Qed.

Lemma consistent_progress m i written total :
  consistent m → consistent (progress i written total m).
Proof.
  intros Hm. unfold progress. destruct (trackOf i m); [|done].
  case_decide; [|done]. by destruct Hm.
Qed.

Lemma consistent_finish m i : consistent m → consistent (finish i m).
Proof.
  intros [Hfresh Huniq Hact Hinfl]. unfold finish.
  destruct (trackOf i m) as [id|] eqn:Etr; [|done]. case_decide as Hi; [|done].
  split; simpl.
  - intros s' (s & Hs & -> & _)%elem_of_setPhase. by apply Hfresh.
  - by rewrite setPhase_sids.
  - intros s' (s & Hs & Hsid & Htr & _ & Hp)%elem_of_setPhase Hph.
    rewrite Hp in Hph. case_decide as Hsi; [done|]. rewrite Hsid, Htr.
    specialize (Hact s Hs Hph). rewrite lookup_delete_ne; [done|].
    intros Heq. rewrite <- Heq, Hi in Hact. congruence.
  - intros id' j. destruct (decide (id = id')) as [<-|Hne].
    + by rewrite lookup_delete_eq.
    + rewrite lookup_delete_ne by done. intros Hj.
      destruct (Hinfl id' j Hj) as (s & Hs & Hsid & Htr & Hph).
      exists (if decide (sid s = i)
              then mkSession (sid s) (track s) (request s) Complete else s).
      split. { unfold setPhase. apply list_elem_of_fmap. by exists s. }
      case_decide as Hsi; [|done]. exfalso.
      destruct (Hinfl id i Hi) as (s2 & Hs2 & Hsid2 & Htr2 & _).
      assert (s = s2) by (apply (sids_unique_eq (sessions m)); congruence).
      subst s2. congruence.
Qed.

Lemma consistent_step m ev : consistent m → consistent (step w state m ev).
Proof.
  destruct ev; simpl;
    [apply consistent_download | apply consistent_progress | apply consistent_finish].
Qed.

Lemma consistent_run events m : consistent m → consistent (run w state events m).
Proof.
  unfold run. revert m. induction events as [|ev events IH]; intros m Hm; [done|].
  simpl. by apply IH, consistent_step.
Qed.

Lemma inFlight_at_most_one m id : consistent m → (length (inFlight id m) ≤ 1)%nat.
Proof.
  intros [_ Huniq Hact _]. unfold inFlight.
  destruct (filter _ (sessions m)) as [|s1 [|s2 l]] eqn:E; simpl; [lia..|].
  exfalso.
  assert (s1 ∈ filter (λ s, track s = id ∧ phase_of s = InFlight) (sessions m)) as H1
    by (rewrite E; left).
  assert (s2 ∈ filter (λ s, track s = id ∧ phase_of s = InFlight) (sessions m)) as H2
    by (rewrite E; right; left).
  apply list_elem_of_filter in H1 as [[Ht1 Hp1] H1].
  apply list_elem_of_filter in H2 as [[Ht2 Hp2] H2].
  pose proof (Hact _ H1 Hp1) as A1. pose proof (Hact _ H2 Hp2) as A2.
  rewrite Ht1 in A1. rewrite Ht2 in A2.
  assert (sid s1 = sid s2) as Hsid by congruence.
  assert (NoDup (sid <$> filter (λ s, track s = id ∧ phase_of s = InFlight) (sessions m)))
    as Hnd.
  { apply (sublist_NoDup _ (sid <$> sessions m)); [exact Huniq|].
    apply fmap_sublist, sublist_filter. }
  rewrite E, !fmap_cons, Hsid in Hnd. apply NoDup_cons in Hnd as [Hnd _].
  apply Hnd. left.
Qed.

Lemma trackOf_setPhase i j p m ss act st n :
  ss = setPhase j p (sessions m) →
  trackOf i (mk ss act st n) = trackOf i m.
Proof.
  intros ->. unfold trackOf. simpl. unfold setPhase.
  induction (sessions m) as [|s l IH]; [done|]. rewrite fmap_cons. simpl.
  assert (sid (if decide (sid s = j)
               then mkSession (sid s) (track s) (request s) p else s) = sid s) as Hsid
    by (by case_decide).
  rewrite Hsid. case_bool_decide; [|done]. simpl. by case_decide.
Qed.

Lemma superseded_step i id m ev :
  superseded i id m → superseded i id (step w state m ev).
Proof.
  intros (Hlt & Htr & Hne). destruct ev as [tr remote|j written total|j]; simpl.
  - unfold superseded, download. simpl. split; [lia|]. split.
    + unfold trackOf. simpl. rewrite bool_decide_false by lia.
      destruct (active m !! Track.id tr) as [k|]; [|done].
      by rewrite <- Htr, <- (trackOf_setPhase i k Cancelled m _ (active m) (status m) (next m) eq_refl).
    + destruct (decide (Track.id tr = id)) as [<-|Hd].
      * rewrite lookup_insert_eq. intros [=]. lia.
      * by rewrite lookup_insert_ne.
  - unfold progress. destruct (trackOf j m); [|done]. by case_decide.
  - unfold finish. destruct (trackOf j m) as [id'|]; [|done].
    case_decide as Hj; [|done]. unfold superseded. simpl. split; [done|]. split.
    + by rewrite (trackOf_setPhase i j Complete m _ _ _ _ eq_refl).
    + destruct (decide (id' = id)) as [<-|Hd].
      * by rewrite lookup_delete_eq.
      * by rewrite lookup_delete_ne.
Qed.

Lemma superseded_run i id events m :
  superseded i id m → superseded i id (run w state events m).
Proof.
  unfold run. revert m. induction events as [|ev events IH]; intros m Hm; [done|].
  simpl. by apply IH, superseded_step.
Qed.

Lemma progress_superseded i id written total m :
  superseded i id m → progress i written total m = m.
Proof.
  intros (_ & Htr & Hne). unfold progress. rewrite Htr. by case_decide.
Qed.

(** C4 (on the manager modelled from the specification): in every state
    the manager reaches, a track has at most one session in flight;
    starting a download for a track whose active session is S1 cancels S1
    and makes the new session the only one in flight for the track; and
    whatever happens afterwards, a progress update that carries the
    identity of S1 changes nothing, [downloadStatus] included. *)
Theorem supersession events :
  let m := run w state events init in
  (∀ id, (length (inFlight id m) ≤ 1)%nat)
  ∧ ∀ tr remote i1,
      active m !! Track.id tr = Some i1 →
      let m2 := download w state tr remote m in
      (∃ s, s ∈ sessions m ∧ sid s = i1 ∧ track s = Track.id tr
            ∧ phase_of s = InFlight)
      ∧ (∀ s, s ∈ sessions m2 → sid s = i1 → phase_of s = Cancelled)
      ∧ (∀ s, s ∈ inFlight (Track.id tr) m2 → sid s = next m)
      ∧ active m2 !! Track.id tr = Some (next m)
      ∧ ∀ later written total,
          progress i1 written total (run w state later m2) = run w state later m2.
Proof.
  assert (Hm : consistent (run w state events init))
    by apply consistent_run, consistent_init.
  simpl. split; [intros id; by apply inFlight_at_most_one|].
  intros tr remote i1 Hi1.
  pose proof (consistent_download _ tr remote Hm) as Hm2.
  destruct (active_inflight _ Hm _ _ Hi1) as (s & Hs & Hsid & Htr & Hph).
  pose proof (sid_fresh _ Hm s Hs) as Hlt. rewrite Hsid in Hlt.
  assert (Hnew : active (download w state tr remote (run w state events init))
                   !! Track.id tr = Some (next (run w state events init))).
  { unfold download. simpl. by rewrite lookup_insert_eq. }
  assert (Hcancel : ∀ s', s' ∈ sessions (download w state tr remote
                                           (run w state events init)) →
                          sid s' = i1 → phase_of s' = Cancelled).
  { unfold download. simpl. rewrite Hi1.
    intros s' [->|Hs']%elem_of_cons Hs'id; simpl in *; [lia|].
    apply elem_of_setPhase in Hs' as (s0 & _ & Hsid0 & _ & _ & Hp).
    rewrite Hp. rewrite Hs'id in Hsid0. by rewrite decide_True. }
  split; [by exists s|]. split; [done|]. split; [|split; [done|]].
  - intros s' [[Ht Hp] Hs']%list_elem_of_filter.
    pose proof (inflight_active _ Hm2 s' Hs' Hp) as Ha.
    rewrite Ht, Hnew in Ha. congruence.
  - intros later written total.
    apply (progress_superseded _ (Track.id tr)), superseded_run.
    split; [simpl; lia|]. split; [|rewrite Hnew; intros [=]; lia].
    assert (mkSession (sid s) (track s) (request s) Cancelled
              ∈ sessions (download w state tr remote (run w state events init))) as Hin.
    { unfold download. simpl. rewrite Hi1. right. unfold setPhase.
      apply list_elem_of_fmap. exists s. by rewrite decide_True. }
    rewrite (trackOf_Some _ i1 _ (sid_unique _ Hm2) Hin Hsid). simpl. by rewrite Htr.
Qed.
End Supersession.

Lemma supersession_witness :
  DownloadManager.progress 0 50 100
    (DownloadManager.run device state_tape [DownloadManager.Progress 1 20 100]
       (DownloadManager.download device state_tape song remote_E_acute
          (DownloadManager.run device state_tape two_events DownloadManager.init)))
  = DownloadManager.run device state_tape [DownloadManager.Progress 1 20 100]
      (DownloadManager.download device state_tape song remote_E_acute
         (DownloadManager.run device state_tape two_events DownloadManager.init)).
Proof.
  refine (proj2 (proj2 (proj2 (proj2 (proj2
    (supersession device state_tape two_events) song remote_E_acute 0%nat _))))
    [DownloadManager.Progress 1 20 100] 50 100).
  vm_compute. reflexivity.
Defined.

(** * Further properties of the code *)

(** ** Extensions and classification *)

Section Extensions.
Implicit Types (s stem ext : jsstr) (c sep : N).

(** X5: the extension is what follows the last dot, and a name without a
    dot is its own extension. *)
Theorem getExtension_after_last_dot stem ext :
  46 ∉ ext →
  getExtension (Some (stem ++ js "." ++ ext)) = ext
  ∧ getExtension (Some ext) = ext
  ∧ (ext ∈ audioExtensions → isAudioFile (Some ext) = true).
Proof.
  intros Hext. split; [by apply getExtension_dot|].
  split; [by apply getExtension_bare|].
  intros Hin. unfold isAudioFile. rewrite getExtension_bare by done.
  by apply bool_decide_eq_true.
Qed.

Lemma getExtension_after_last_dot_witness :
  getExtension (Some (js "My.Song" ++ js "." ++ js "mp3")) = js "mp3"
  ∧ getExtension (Some (js "mp3")) = js "mp3"
  ∧ (js "mp3" ∈ audioExtensions → isAudioFile (Some (js "mp3")) = true).
Proof.
  apply (getExtension_after_last_dot (js "My.Song") (js "mp3")).
  apply (bool_decide_unpack _). vm_compute. exact I.
Defined.

Lemma playlist_not_audio name : isPlaylist name = true → isAudioFile name = false.
Proof.
  unfold isPlaylist, isAudioFile. intros H%bool_decide_eq_true. rewrite H.
  by vm_compute.
Qed.

(** X6: no name is both a playlist and an audio file; an entry that passes
    [isFolderOrAudioFile] or [isFolderOrPlaylist] passes [isFileOrFolder],
    and one that passes both is a folder. *)
Theorem classification_exclusive (entry : Entry.t) :
  isPlaylist (Entry.name entry) && isAudioFile (Entry.name entry) = false
  ∧ (isFolderOrAudioFile entry = true → isFileOrFolder entry = true)
  ∧ (isFolderOrPlaylist entry = true → isFileOrFolder entry = true)
  ∧ (isFolderOrAudioFile entry = true → isFolderOrPlaylist entry = true →
     Entry.tag entry = js "folder").
Proof.
  assert (Htag : ∀ b, bool_decide (Entry.tag entry = js "folder")
                      || (bool_decide (Entry.tag entry = js "file") && b) = true →
                      isFileOrFolder entry = true).
  { intros b H. unfold isFileOrFolder. apply bool_decide_eq_true.
    apply orb_true_iff in H as [H|[H _]%andb_true_iff];
      apply bool_decide_eq_true in H; rewrite H.
    - apply list_elem_of_further, list_elem_of_here.
    - apply list_elem_of_here. }
  split; [|split; [apply Htag|split; [apply Htag|]]].
  - destruct (isPlaylist (Entry.name entry)) eqn:E; [|done].
    by rewrite (playlist_not_audio _ E).
  - unfold isFolderOrAudioFile, isFolderOrPlaylist.
    case_bool_decide as Hf; [done|]. simpl.
    intros [_ Ha]%andb_true_iff [_ Hp]%andb_true_iff.
    rewrite (playlist_not_audio _ Hp) in Ha. done.
Qed.

Lemma classification_exclusive_witness :
  isFileOrFolder entry_song = true.
Proof.
  exact (proj1 (proj2 (classification_exclusive entry_song)) eq_refl).
Defined.
End Extensions.

(** ** File names and classification *)

Section Normalised.
Implicit Types (s e : jsstr) (c : N) (t : Track.t).

Lemma trimStart_keep_from a c e :
  isWhiteSpace c = false → ∃ a', trimStart (a ++ c :: e) = a' ++ c :: e.
Proof.
  intros Hc. induction a as [|d a IH]; simpl.
  - exists []. by rewrite Hc.
  - destruct (isWhiteSpace d); [done|]. by exists (d :: a).
Qed.

Lemma normalised_no_dot e : 46 ∉ e → 46 ∉ trimEnd (separatorToUnderscore <$> e).
Proof.
  intros He H. destruct (trimEnd_prefix (separatorToUnderscore <$> e)) as [k Hk].
  assert (46 ∈ separatorToUnderscore <$> e) as Hin.
  { rewrite Hk, elem_of_app. by left. }
  apply list_elem_of_fmap in Hin as (c & Hc & Hin).
  unfold separatorToUnderscore in Hc. case_bool_decide; [done|]. by subst c.
Qed.

(** The extension of a normalised name with a dot: the normalised
    extension, trimmed at its end. *)
Lemma getExtension_createValidFileURI a e :
  46 ∉ e →
  getExtension (Some (createValidFileURI (a ++ 46 :: e)))
    = trimEnd (separatorToUnderscore <$> e).
Proof.
  intros He. rewrite createValidFileURI_eq, fmap_app, fmap_cons.
  change (separatorToUnderscore 46) with 46. unfold trim.
  destruct (trimStart_keep_from (separatorToUnderscore <$> a) 46
              (separatorToUnderscore <$> e) eq_refl) as [a' ->].
  rewrite trimEnd_keep by done. by apply getExtension_dot, normalised_no_dot.
Qed.

Lemma tidy_trimEnd e : tidy e → trimEnd (separatorToUnderscore <$> e) = e.
Proof.
  intros [Hsep Htrim]. rewrite (separatorFree_fixed _ Hsep).
  rewrite <- Htrim at 1. unfold trim. by rewrite trimEnd_idemp.
Qed.

Lemma tidy_extension_survives s :
  tidy (getExtension (Some s)) →
  getExtension (Some (createValidFileURI s)) = getExtension (Some s).
Proof.
  intros Ht. destruct (decide (46 ∈ s)) as [Hdot|Hdot].
  - assert (∃ a e, s = a ++ 46 :: e ∧ 46 ∉ e) as (a & e & -> & He).
    { clear Ht. induction s as [|c s IH]; [by apply elem_of_nil in Hdot|].
      destruct (decide (46 ∈ s)) as [Hs|Hs].
      - destruct (IH Hs) as (a & e & -> & He). by exists (c :: a), e.
      - apply elem_of_cons in Hdot as [<-|?]; [|done]. by exists [], s. }
    rewrite getExtension_dot in * by done.
    rewrite getExtension_createValidFileURI by done. by apply tidy_trimEnd.
  - rewrite (getExtension_bare s Hdot) in Ht |- *. destruct Ht as [Hsep Htrim].
    rewrite createValidFileURI_eq, (separatorFree_fixed _ Hsep), Htrim.
    by rewrite getExtension_bare.
Qed.

Lemma audio_tidy e : e ∈ audioExtensions → tidy e.
Proof.
  unfold audioExtensions. rewrite !elem_of_cons, elem_of_nil.
  intros [->|[->|[->|[->|[]]]]]; by vm_compute.
Qed.

Lemma isAudioFile_createValidFileURI s :
  isAudioFile (Some s) = true → isAudioFile (Some (createValidFileURI s)) = true.
Proof.
  unfold isAudioFile. intros H%bool_decide_eq_true. apply bool_decide_eq_true.
  by rewrite tidy_extension_survives by by apply audio_tidy.
Qed.

Lemma getFileName_extension t :
  ∃ f, getFileName (Some t) = Some f
       ∧ f ≠ []
       ∧ getExtension (Some f)
         = trimEnd (separatorToUnderscore <$> getExtension (Track.name t)).
Proof.
  unfold getFileName.
  set (a := Track.id t ++ js "_" ++ Track.rev t).
  set (e := getExtension (Track.name t)).
  assert (Heq : Track.id t ++ js "_" ++ Track.rev t ++ js "." ++ e = a ++ 46 :: e).
  { unfold a. by rewrite <- !(assoc_L (++)). }
  rewrite Heq. eexists. split; [reflexivity|]. split.
  - rewrite createValidFileURI_eq, fmap_app, fmap_cons.
    change (separatorToUnderscore 46) with 46. unfold trim.
    destruct (trimStart_keep_from (separatorToUnderscore <$> a) 46
                (separatorToUnderscore <$> e) eq_refl) as [a' ->].
    rewrite trimEnd_keep by done. by destruct a'.
  - apply getExtension_createValidFileURI, getExtension_no_dot.
Qed.

Lemma getFileName_audio t :
  isAudioFile (Track.name t) = true →
  ∃ f, getFileName (Some t) = Some f ∧ f ≠ [] ∧ isAudioFile (Some f) = true.
Proof.
  unfold isAudioFile at 1. intros H%bool_decide_eq_true.
  destruct (getFileName_extension t) as (f & Hf & Hne & Hext).
  exists f. split; [done|]. split; [done|]. unfold isAudioFile.
  apply bool_decide_eq_true. rewrite Hext, tidy_trimEnd; [done|by apply audio_tidy].
Qed.

(** X7: normalisation keeps a recognised extension.  A name that is an
    audio file or a playlist by extension still is one after
    [createValidFileURI], and the file name [getFileName] gives an audio
    track is an audio file. *)
Theorem classification_survives_normalisation :
  (∀ s, isAudioFile (Some s) = true →
        isAudioFile (Some (createValidFileURI s)) = true)
  ∧ (∀ s, isPlaylist (Some s) = true →
          isPlaylist (Some (createValidFileURI s)) = true)
  ∧ (∀ t, isAudioFile (Track.name t) = true →
          ∃ f, getFileName (Some t) = Some f ∧ isAudioFile (Some f) = true).
Proof.
  split; [apply isAudioFile_createValidFileURI|]. split.
  - intros s. unfold isPlaylist. intros H%bool_decide_eq_true.
    apply bool_decide_eq_true. rewrite tidy_extension_survives; [done|].
    rewrite H. by vm_compute.
  - intros t Ht. destruct (getFileName_audio t Ht) as (f & ? & _ & ?). by exists f.
Qed.

Lemma classification_survives_normalisation_witness :
  ∃ f, getFileName (Some song) = Some f ∧ isAudioFile (Some f) = true.
Proof.
  exact (proj2 (proj2 classification_survives_normalisation) song eq_refl).
Defined.
End Normalised.

(** ** More on the purge *)

Section PurgeMore.
Implicit Types (w : World.t) (f : jsstr) (e : jsstr * jsstr) (t : Track.t).

Lemma cleanFiles_frame getState w :
  World.documentDirectory (after (cleanFiles getState w)) = World.documentDirectory w
  ∧ World.unreadable (after (cleanFiles getState w)) = World.unreadable w
  ∧ World.locked (after (cleanFiles getState w)) = World.locked w
  ∧ World.console (after (cleanFiles getState w)) = World.console w.
Proof.
  unfold cleanFiles.
  destruct (FileSystem.readDirectoryAsync _ w) as [files|err]; [|done].
  pose proof (mapWorld_delete (World.documentDirectory w)
    (inactiveFiles files (AppState.playlists_data (getState ()))) w) as [H _].
  by destruct (mapWorld _ _ w).
Qed.

Lemma mapWorld_delete_sublist dir (l : list jsstr) w :
  World.disk (mapWorld (λ f, FileSystem.deleteAsync (dir ++ f)) l w).1
    `sublist_of` World.disk w.
Proof.
  revert w. induction l as [|f l IH]; intros w; simpl; [done|].
  assert (World.disk (FileSystem.deleteAsync (dir ++ f) w).1 `sublist_of` World.disk w)
    as H1.
  { unfold FileSystem.deleteAsync. destruct (_ && _); simpl; [|done].
    apply sublist_filter. }
  destruct (FileSystem.deleteAsync (dir ++ f) w) as [w1 r1]. specialize (IH w1).
  destruct (mapWorld _ l w1) as [w2 rs]. simpl in *. by etrans.
Qed.

Lemma cleanFiles_sublist getState w :
  World.disk (after (cleanFiles getState w)) `sublist_of` World.disk w.
Proof.
  unfold cleanFiles.
  destruct (FileSystem.readDirectoryAsync _ w) as [files|err]; [|done].
  pose proof (mapWorld_delete_sublist (World.documentDirectory w)
    (inactiveFiles files (AppState.playlists_data (getState ()))) w) as H.
  by destruct (mapWorld _ _ w).
Qed.

Lemma atOrBelow_refl uri : FileSystem.atOrBelow uri uri = true.
Proof. apply atOrBelow_spec. exists []. rewrite app_nil_r. split; [done|by left]. Qed.

Lemma track_active (playlists : list Playlist.t) p t :
  p ∈ playlists → t ∈ Playlist.tracks (Playlist.data p) →
  getFileName (Some t) ∈ activeFiles playlists.
Proof. intros Hp Ht. apply activeFiles_spec. exists p. split; [done|]. right. eauto. Qed.

(** X3: the purge never deletes what a tracked playlist needs: its own
    file and the file of each of its tracks stay on the disk with their
    content, whatever else is purged and whatever the device refuses.  The
    names are names of the document directory: no ['/'] in them. *)
Theorem cleanFiles_keeps_active getState w p :
  p ∈ AppState.playlists_data (getState ()) →
  (47 ∉ createValidFileURI (Playlist.name (Playlist.meta p)) →
   ∀ content,
     (World.documentDirectory w
        ++ createValidFileURI (Playlist.name (Playlist.meta p)), content)
       ∈ World.disk w →
     (World.documentDirectory w
        ++ createValidFileURI (Playlist.name (Playlist.meta p)), content)
       ∈ World.disk (after (cleanFiles getState w)))
  ∧ ∀ t f path content,
      t ∈ Playlist.tracks (Playlist.data p) →
      getFileName (Some t) = Some f → 47 ∉ f →
      getFilePath w (Some t) = Some path →
      (path, content) ∈ World.disk w →
      (path, content) ∈ World.disk (after (cleanFiles getState w)).
Proof.
  intros Hp. split.
  - intros Hs content Hin.
    apply (cleanFiles_keeps_name _ _
             (createValidFileURI (Playlist.name (Playlist.meta p)))); try done.
    + apply atOrBelow_refl.
    + intros _. apply activeFiles_spec. exists p. split; [done|]. by left.
  - intros t f path content Ht Hf Hs Hpath Hin.
    unfold getFilePath in Hpath. rewrite Hf in Hpath. injection Hpath as <-.
    apply (cleanFiles_keeps_name _ _ f); try done.
    + apply atOrBelow_refl.
    + intros _. rewrite <- Hf. apply (track_active _ p t Hp Ht).
Qed.

Lemma cleanFiles_keeps_active_witness :
  (js "file:///doc/abc_3.mp3", js "ID3")
    ∈ World.disk (after (cleanFiles (λ _, state_tape) device_locked)).
Proof.
  refine (proj2 (cleanFiles_keeps_active (λ _, state_tape) device_locked tape _)
            song (js "abc_3.mp3") _ _ _ eq_refl _ eq_refl _).
  - apply list_elem_of_here.
  - apply list_elem_of_here.
  - apply (bool_decide_unpack _). vm_compute. exact I.
  - apply list_elem_of_further, list_elem_of_here.
Defined.

(** X4: the purge only removes: the disk afterwards is the disk before
    with some entries left out (same order, same content), the rest of the
    device is as before, and what is not in the document directory, at any
    depth, is never removed. *)
Theorem cleanFiles_only_removes getState w :
  World.disk (after (cleanFiles getState w)) `sublist_of` World.disk w
  ∧ World.documentDirectory (after (cleanFiles getState w)) = World.documentDirectory w
  ∧ World.locked (after (cleanFiles getState w)) = World.locked w
  ∧ (∀ e, e ∈ World.disk w →
          FileSystem.entryName (World.documentDirectory w) e.1 = None →
          e ∈ World.disk (after (cleanFiles getState w)))
  ∧ ∀ e, e ∈ World.disk w →
         (¬ ∃ rest, e.1 = World.documentDirectory w ++ rest) →
         e ∈ World.disk (after (cleanFiles getState w)).
Proof.
  split; [apply cleanFiles_sublist|].
  destruct (cleanFiles_frame getState w) as (Hd & _ & Hl & _).
  split; [done|]. split; [done|].
  assert (∀ e, e ∈ World.disk w →
            FileSystem.entryName (World.documentDirectory w) e.1 = None →
            e ∈ World.disk (after (cleanFiles getState w))) as Hout.
  { intros e He Hname.
    destruct (FileSystem.readDirectoryAsync (World.documentDirectory w) w)
      as [files|err] eqn:Hread.
    - rewrite (cleanFiles_disk _ _ _ _ Hread). split; [done|].
      intros (g & (Hg & _)%inactiveFiles_spec & Hb & _).
      destruct (listed_name _ _ _ _ Hread Hg) as [Hne Hs].
      apply atOrBelow_entryName in Hb; [congruence|done..].
    - unfold cleanFiles. by rewrite Hread. }
  split; [exact Hout|]. intros e He Hno. apply Hout; [done|].
  destruct (FileSystem.entryName (World.documentDirectory w) e.1) as [g|] eqn:E;
    [|done].
  apply entryName_Some in E as (_ & _ & rest & Heq & _). exfalso. apply Hno.
  by exists (g ++ rest).
Qed.

Lemma cleanFiles_only_removes_witness :
  (js "file:///music/abc_3.mp3", js "ID3")
    ∈ World.disk (after (cleanFiles (λ _, state_empty) device_elsewhere)).
Proof.
  refine (proj1 (proj2 (proj2 (proj2 (cleanFiles_only_removes (λ _, state_empty)
            device_elsewhere)))) (js "file:///music/abc_3.mp3", js "ID3") _ eq_refl).
  apply list_elem_of_further, list_elem_of_here.
Defined.

(** X2: the promise of [cleanFiles] is rejected exactly when the listing of
    the document directory is, with the listing's error; nothing has been
    deleted or started then. *)
Theorem cleanFiles_rejects_with_listing getState w err :
  result (cleanFiles getState w) = Rejected err
  ↔ FileSystem.readDirectoryAsync (World.documentDirectory w) w = Rejected err
    ∧ World.documentDirectory w ∈ World.unreadable w
    ∧ after (cleanFiles getState w) = w
    ∧ dropped (cleanFiles getState w) = [].
Proof.
  unfold cleanFiles, FileSystem.readDirectoryAsync.
  case_bool_decide as Hu; simpl.
  - split; [|by intros [[= <-] _]]. intros [= <-]. by repeat split.
  - destruct (mapWorld _ _ w). simpl. split; [done | by intros [? _]].
Qed.

(** A deletion the device cannot carry out leaves the device as it is. *)
Lemma mapWorld_delete_noop dir (l : list jsstr) w :
  (∀ f, f ∈ l → ¬ (FileSystem.present (dir ++ f) w = true
                    ∧ dir ++ f ∉ World.locked w)) →
  mapWorld (λ f, FileSystem.deleteAsync (dir ++ f)) l w
    = (w, (λ _, Rejected (js "ERR_FILESYSTEM")) <$> l).
Proof.
  induction l as [|f l IH]; intros H; cbn [mapWorld fmap list_fmap]; [done|].
  unfold FileSystem.deleteAsync at 1.
  destruct (FileSystem.present (dir ++ f) w && _) eqn:E.
  - apply andb_true_iff in E as [Hp Hl%negb_true_iff%bool_decide_eq_false].
    destruct (H f); [left|done].
  - rewrite IH; [done|]. intros g Hg. apply H. by right.
Qed.

Lemma cleanFiles_second_run getState w files2 f :
  FileSystem.readDirectoryAsync (World.documentDirectory w)
    (after (cleanFiles getState w)) = Resolved files2 →
  f ∈ inactiveFiles files2 (AppState.playlists_data (getState ())) →
  FileSystem.present (World.documentDirectory w ++ f) (after (cleanFiles getState w))
    = true →
  World.documentDirectory w ++ f ∈ World.locked w.
Proof.
  intros Hread2 (Hf2 & Hcl & Hin)%inactiveFiles_spec (e & Hdisk & Hb)%present_spec.
  destruct (decide (World.documentDirectory w ++ f ∈ World.locked w)) as [|Hlock];
    [done|exfalso].
  destruct (listed_name _ _ _ _ Hread2 Hf2) as [Hne Hslash].
  destruct (FileSystem.readDirectoryAsync (World.documentDirectory w) w)
    as [files|err] eqn:Hread.
  - apply (cleanFiles_disk _ _ _ _ Hread) in Hdisk as [Hdisk Hno].
    apply Hno. exists f. split; [|done]. apply inactiveFiles_spec.
    split; [|done]. apply (listing_spec _ _ _ Hread).
    split; [done|]. split; [done|]. apply present_spec. by exists e.
  - revert Hread2. unfold cleanFiles. rewrite Hread. simpl. by rewrite Hread.
Qed.

(** X1: a second purge with the same state changes nothing: the device
    after it is the device after the first, every deletion it starts is one
    the device refuses again, and none is started when the device refuses
    nothing. *)
Theorem cleanFiles_idempotent getState w :
  after (cleanFiles getState (after (cleanFiles getState w)))
    = after (cleanFiles getState w)
  ∧ (∀ p, p ∈ dropped (cleanFiles getState (after (cleanFiles getState w))) →
          p = Rejected (js "ERR_FILESYSTEM"))
  ∧ (World.locked w = [] →
     dropped (cleanFiles getState (after (cleanFiles getState w))) = []).
Proof.
  set (w1 := after (cleanFiles getState w)).
  destruct (cleanFiles_frame getState w) as (Hd & _ & Hl & _). fold w1 in Hd, Hl.
  assert (Hsecond : ∀ files2 f,
            FileSystem.readDirectoryAsync (World.documentDirectory w1) w1
              = Resolved files2 →
            f ∈ inactiveFiles files2 (AppState.playlists_data (getState ())) →
            FileSystem.present (World.documentDirectory w1 ++ f) w1 = true →
            World.documentDirectory w1 ++ f ∈ World.locked w1).
  { intros files2 f. rewrite Hd, Hl. apply cleanFiles_second_run. }
  clearbody w1. unfold cleanFiles.
  destruct (FileSystem.readDirectoryAsync (World.documentDirectory w1) w1)
    as [files2|err] eqn:Hread2.
  2: { split; [done|]. split; [by intros p ?%elem_of_nil | done]. }
  rewrite mapWorld_delete_noop.
  2: { intros f Hf [Hin Hlock]. apply Hlock. by apply (Hsecond files2). }
  simpl. split; [done|]. split.
  - by intros p (f & -> & _)%list_elem_of_fmap.
  - intros Hnolock.
    destruct (inactiveFiles files2 (AppState.playlists_data (getState ())))
      as [|f l] eqn:E; [done|exfalso].
    assert (f ∈ inactiveFiles files2 (AppState.playlists_data (getState ()))) as Hf
      by (rewrite E; left).
    pose proof Hf as (Hf2 & _)%inactiveFiles_spec.
    apply (listing_spec _ _ _ Hread2) in Hf2 as (_ & _ & Hin).
    pose proof (Hsecond _ _ eq_refl Hf Hin) as Hlocked.
    rewrite Hl, Hnolock in Hlocked. by apply elem_of_nil in Hlocked.
Qed.

Lemma cleanFiles_idempotent_witness :
  dropped (cleanFiles (λ _, state_empty) (after (cleanFiles (λ _, state_empty) device)))
    = [].
Proof.
  exact (proj2 (proj2 (cleanFiles_idempotent (λ _, state_empty) device)) eq_refl).
Defined.
End PurgeMore.

(** ** Downloads, the disk and the purge *)

Section DownloadsAndPurge.
Implicit Types (w : World.t) (f : jsstr) (t : Track.t).

Lemma createValidFileURI_twice (s : jsstr) :
  createValidFileURI (createValidFileURI s) = createValidFileURI s.
Proof.
  rewrite (createValidFileURI_eq (createValidFileURI s)), fmap_fixed.
  - rewrite createValidFileURI_eq. apply trim_idemp.
  - apply Forall_forall. intros c Hc. rewrite createValidFileURI_eq in Hc.
    apply trim_sublist, list_elem_of_fmap in Hc as (d & -> & _).
    apply separatorToUnderscore_idemp.
Qed.

(** X8: a downloader created for the file name of a track writes to the
    path of that track, the one [isDownloaded] checks: once a file is
    there, [isDownloaded] answers 100. *)
Theorem createDownloader_writes_file_path {C} w t (remote : jsstr)
    (state : AppState.t) (progress : C) :
  ∃ f, getFileName (Some t) = Some f
       ∧ getFilePath w (Some t)
         = Some (FileSystem.fileUri (createDownloader w f remote state progress))
       ∧ ∀ w', World.documentDirectory w' = World.documentDirectory w →
               FileSystem.fileUri (createDownloader w f remote state progress)
                 ∈ World.uris w' →
               ∃ t', isDownloaded t w' = Resolved t'
                     ∧ Track.downloadStatus t' = Some 100%Z.
Proof.
  eexists. split; [reflexivity|]. split.
  - simpl. by rewrite createValidFileURI_twice.
  - intros w' Hdir Hin. simpl in Hin. rewrite createValidFileURI_twice in Hin.
    unfold isDownloaded, getFilePath. simpl. rewrite Hdir.
    rewrite (present_file _ _ Hin). by eexists.
Qed.

Lemma createDownloader_writes_file_path_witness :
  ∃ t', isDownloaded song device = Resolved t'
        ∧ Track.downloadStatus t' = Some 100%Z.
Proof.
  destruct (createDownloader_writes_file_path device song remote_E_acute state_tape ())
    as (f & Hf & _ & H).
  injection Hf as <-. apply (H device eq_refl).
  apply list_elem_of_further, list_elem_of_here.
Defined.

(** X9: the purge does not change what [isDownloaded] answers for a track
    of a tracked playlist whose file name is a name of the document
    directory (no ['/'] in it). *)
Theorem isDownloaded_after_cleanFiles getState w (p : Playlist.t) t f :
  p ∈ AppState.playlists_data (getState ()) →
  t ∈ Playlist.tracks (Playlist.data p) →
  getFileName (Some t) = Some f → 47 ∉ f →
  isDownloaded t (after (cleanFiles getState w)) = isDownloaded t w.
Proof.
  intros Hp Ht Hf Hs. destruct (cleanFiles_frame getState w) as (Hd & _).
  unfold isDownloaded, getFilePath, FileSystem.getInfoAsync. rewrite Hf, Hd.
  cbn [FileSystem.exists_]. change (template (Some f)) with f.
  assert (FileSystem.present (World.documentDirectory w ++ f)
            (after (cleanFiles getState w))
          = FileSystem.present (World.documentDirectory w ++ f) w) as ->; [|done].
  apply eq_true_iff_eq. rewrite !present_spec. split.
  - intros (e & He & Hb). exists e. split; [|done].
    eapply elem_of_sublist; [exact He|]. apply cleanFiles_sublist.
  - intros (e & He & Hb). exists e. split; [|done].
    apply (cleanFiles_keeps_name _ _ f); try done.
    intros _. rewrite <- Hf. apply (track_active _ p t Hp Ht).
Qed.

Lemma isDownloaded_after_cleanFiles_witness :
  isDownloaded song (after (cleanFiles (λ _, state_tape) device_locked))
    = isDownloaded song device_locked.
Proof.
  apply (isDownloaded_after_cleanFiles (λ _, state_tape) device_locked tape song
           (js "abc_3.mp3")); [apply list_elem_of_here..|reflexivity|].
  apply (bool_decide_unpack _). vm_compute. exact I.
Defined.

(** X10: the purge removes the file of an audio track that no tracked
    playlist holds, and [isDownloaded] then answers [null]. *)
Theorem isDownloaded_after_purge getState w files t f :
  FileSystem.readDirectoryAsync (World.documentDirectory w) w = Resolved files →
  isAudioFile (Track.name t) = true →
  getFileName (Some t) = Some f →
  47 ∉ f →
  Some f ∉ activeFiles (AppState.playlists_data (getState ())) →
  World.documentDirectory w ++ f ∉ World.locked w →
  ∃ t', isDownloaded t (after (cleanFiles getState w)) = Resolved t'
        ∧ Track.downloadStatus t' = None
        ∧ Track.id t' = Track.id t ∧ Track.rev t' = Track.rev t.
Proof.
  intros Hread Haudio Hf Hslash Hinactive Hlock.
  destruct (getFileName_audio t Haudio) as (f' & Hf' & Hne & Hcl).
  assert (f' = f) as -> by congruence.
  destruct (cleanFiles_frame getState w) as (Hd & _).
  unfold isDownloaded, getFilePath, FileSystem.getInfoAsync. rewrite Hf, Hd.
  cbn [FileSystem.exists_]. change (template (Some f)) with f.
  assert (FileSystem.present (World.documentDirectory w ++ f)
            (after (cleanFiles getState w)) = false) as ->; [|by eexists].
  apply not_true_iff_false. intros (e & Hdisk & Hb)%present_spec.
  apply (cleanFiles_disk _ _ _ _ Hread) in Hdisk as [Hdisk Hno].
  apply Hno. exists f. split; [|done]. apply inactiveFiles_spec.
  split; [|split; [by rewrite Hcl, orb_true_r | done]].
  apply (listing_spec _ _ _ Hread). split; [done|]. split; [done|].
  apply present_spec. by exists e.
Qed.

Lemma isDownloaded_after_purge_witness :
  ∃ t', isDownloaded song (after (cleanFiles (λ _, state_empty) device)) = Resolved t'
        ∧ Track.downloadStatus t' = None
        ∧ Track.id t' = Track.id song ∧ Track.rev t' = Track.rev song.
Proof.
  apply (isDownloaded_after_purge (λ _, state_empty) device
           [js "p1.mix"; js "abc_3.mp3"; js "stray.txt"] song (js "abc_3.mp3"));
    try reflexivity.
  - apply (bool_decide_unpack _). vm_compute. exact I.
  - apply not_elem_of_nil.
  - apply not_elem_of_nil.
Defined.
End DownloadsAndPurge.

(** ** Freshness of a timestamp *)

Section Timeout.
Local Open Scope Z_scope.

Lemma quot_minutes_lt (d timeout : Z) :
  0 < timeout → (Z.quot d 60000 <? timeout) = true ↔ d < timeout * 60000.
Proof.
  intros Ht. rewrite Z.ltb_lt.
  pose proof (Z.quot_rem' d 60000) as Hqr.
  destruct (Z_lt_le_dec d 0) as [Hneg|Hpos].
  - pose proof (Z.rem_bound_pos_neg d 60000 ltac:(lia) ltac:(lia)). nia.
  - pose proof (Z.rem_bound_pos d 60000 Hpos ltac:(lia)). nia.
Qed.

Lemma validInstant_spec (z : Z) :
  validInstant z = true ↔ - 8640000000000000 ≤ z ≤ 8640000000000000.
Proof. unfold validInstant. rewrite andb_true_iff, !Z.leb_le. lia. Qed.

(** X11: for instants a [Date] can hold and a positive timeout of at most
    2^36 minutes, [checkTimeout] holds exactly when the timestamp is less
    than timeout minutes before now, to the millisecond (so a timestamp in
    the future is fresh); the default is five minutes; a missing timestamp
    is never fresh, and neither is one outside the range of [Date]. *)
Theorem checkTimeout_fresh (now ts timeout : Z) :
  0 < timeout ≤ 2 ^ 36 →
  validInstant now = true →
  (validInstant ts = true →
   (checkTimeout now (Some ts) (Some timeout) = true ↔ now - ts < timeout * 60000)
   ∧ (checkTimeout now (Some ts) None = true ↔ now - ts < 300000)
   ∧ (now ≤ ts → checkTimeout now (Some ts) (Some timeout) = true))
  ∧ checkTimeout now None (Some timeout) = false
  ∧ (validInstant ts = false →
     checkTimeout now (Some ts) (Some timeout) = false
     ∧ checkTimeout now (Some ts) None = false).
Proof.
  intros Ht Hnow. unfold checkTimeout. rewrite Hnow. simpl.
  split; [|split; [done|]].
  - intros ->. cbn [andb default from_option id].
    rewrite (quot_minutes_lt _ timeout), (quot_minutes_lt _ 5) by lia.
    repeat split; lia.
  - by intros ->.
Qed.

Lemma checkTimeout_fresh_witness :
  checkTimeout 1000000 (Some 700001) (Some 5) = true
  ∧ checkTimeout 1000000 (Some 8640000000000001) (Some 5) = false.
Proof.
  destruct (checkTimeout_fresh 1000000 700001 5) as (Hin & _ & _);
    [split; [reflexivity|discriminate]|reflexivity|].
  destruct (checkTimeout_fresh 1000000 8640000000000001 5) as (_ & _ & Hout);
    [split; [reflexivity|discriminate]|reflexivity|].
  split; [apply (proj1 (Hin eq_refl)); reflexivity | apply (Hout eq_refl)].
Defined.
End Timeout.

(** ** The player *)

Section PlayerProperties.
Import Player.
Context {num : Type} `{Numbers num}.
Implicit Types (p q : Player.t num) (status : Status.t num) (position : num).

Lemma updates_seeking statuses p :
  State.isSeeking (state p) = true →
  State.isSeeking (state (updates statuses p)) = true
  ∧ State.position (state (updates statuses p)) = State.position (state p)
  ∧ State.fullScreen (state (updates statuses p)) = State.fullScreen (state p)
  ∧ sound (updates statuses p) = sound p
  ∧ props (updates statuses p) = props p.
Proof.
  unfold updates. revert p. induction statuses as [|status statuses IH]; intros p Hs.
  - done.
  - simpl.
    assert (State.isSeeking (state (handleAudioUpdate status p).1) = true
            ∧ State.position (state (handleAudioUpdate status p).1)
              = State.position (state p)
            ∧ State.fullScreen (state (handleAudioUpdate status p).1)
              = State.fullScreen (state p)
            ∧ sound (handleAudioUpdate status p).1 = sound p
            ∧ props (handleAudioUpdate status p).1 = props p) as (H1 & H2 & H3 & H4 & H5).
    { unfold handleAudioUpdate. destruct (Status.isLoaded status); simpl.
      - by rewrite Hs.
      - by destruct (truthy (Status.error status)). }
    destruct (IH _ H1) as (? & ? & ? & ? & ?). repeat split; congruence.
Qed.

(** X12: while the user drags the slider, status updates do not move it:
    after [seeking], whatever updates arrive, the position is the one the
    user set and the sound and the full-screen flag are untouched;
    [seekEnd] puts the slider where the user drops it and ends the drag, so
    that the next update of a loaded sound sets the position from the
    sound again. *)
Theorem seeking_holds_position position statuses p :
  State.position (state (updates statuses (seeking position p))) = position
  ∧ State.isSeeking (state (updates statuses (seeking position p))) = true
  ∧ State.fullScreen (state (updates statuses (seeking position p)))
    = State.fullScreen (state p)
  ∧ sound (updates statuses (seeking position p)) = sound p
  ∧ ∀ dropped_at status,
      State.position
        (state (seekEnd dropped_at (updates statuses (seeking position p))).1)
        = dropped_at
      ∧ (Status.isLoaded status = true →
         State.position
           (state (handleAudioUpdate status
                     (seekEnd dropped_at (updates statuses (seeking position p))).1).1)
         = div (Status.positionMillis status) (Status.durationMillis status)).
Proof.
  destruct (updates_seeking statuses (seeking position p) eq_refl)
    as (H1 & H2 & H3 & H4 & _).
  split; [done|]. split; [done|]. split; [done|]. split; [done|].
  intros dropped_at status. split; [done|].
  intros Hl. unfold handleAudioUpdate. by rewrite Hl.
Qed.

(** X13: what a status update triggers: [trackComplete] exactly for a
    loaded status that just finished, [stop] exactly for an unloaded status
    with an error, and then right after the error was printed; an unloaded
    status never changes the instance, and no update touches the sound. *)
Theorem handleAudioUpdate_effects status p :
  (TrackComplete ∈ (handleAudioUpdate status p).2
   ↔ Status.isLoaded status = true ∧ Status.didJustFinish status = true)
  ∧ (Stop ∈ (handleAudioUpdate status p).2
     ↔ Status.isLoaded status = false
       ∧ ∃ message, Status.error status = Some message ∧ message ≠ []
           ∧ (handleAudioUpdate status p).2
             = [ConsoleError (js "Player Error: " ++ message); Stop])
  ∧ (Status.isLoaded status = false → (handleAudioUpdate status p).1 = p)
  ∧ sound (handleAudioUpdate status p).1 = sound p.
Proof.
  unfold handleAudioUpdate.
  destruct (Status.isLoaded status); simpl.
  - split; [|split; [|done]].
    + destruct (Status.didJustFinish status).
      * split; [done|]. intros _. left.
      * split; [by intros ?%elem_of_nil | by intros [_ ?]].
    + destruct (Status.didJustFinish status); split;
        try (by intros [? _]); intros Hin;
        repeat (apply elem_of_cons in Hin as [Hin|Hin]; [discriminate|]);
        by apply elem_of_nil in Hin.
  - unfold truthy. destruct (Status.error status) as [[|c message]|]; simpl.
    + split; [|split; [|done]].
      * split; [by intros ?%elem_of_nil | by intros [? _]].
      * split; [by intros ?%elem_of_nil|]. by intros (_ & m & [= <-] & ? & _).
    + split; [|split; [|done]].
      * split; [|by intros [? _]]. intros Hin.
        repeat (apply elem_of_cons in Hin as [Hin|Hin]; [discriminate|]).
        by apply elem_of_nil in Hin.
      * split; [|intros _; right; left]. intros _. split; [done|].
        by exists (c :: message).
    + split; [|split; [|done]].
      * split; [by intros ?%elem_of_nil | by intros [? _]].
      * split; [by intros ?%elem_of_nil|]. by intros (_ & m & [=] & _).
Qed.

Lemma notReady_false (track : option Track.t) :
  notReady track = false
  ↔ ∃ t n, track = Some t ∧ Track.downloadStatus t = Some n ∧ (100 ≤ n)%Z.
Proof.
  unfold notReady. destruct track as [t|].
  - destruct (Track.downloadStatus t) as [n|] eqn:E.
    + rewrite orb_false_iff, Z.eqb_neq, Z.ltb_ge. split.
      * intros [_ ?]. exists t, n. by repeat split.
      * intros (t' & n' & [= <-] & Hn & ?). rewrite E in Hn. injection Hn as <-. lia.
    + split; [done|]. intros (t' & n' & [= <-] & Hn & _). congruence.
  - split; [done|]. by intros (t' & n' & [=] & _).
Qed.

Lemma initializeSound_result (w : World.t) (unloadError : option jsstr)
    (createFails : bool) (trackOverride : option Track.t)
    (shouldPlayOverride : option bool) p :
  let track := match trackOverride with
               | Some t => Some t
               | None => Props.track (props p)
               end in
  (initializeSound w unloadError createFails trackOverride shouldPlayOverride p).1
  = mk (props p) (state p)
      (if notReady track
       then match sound p, unloadError with
            | Some old, Some _ =>
                Some (Sound.mk (Sound.uri old) (Sound.shouldPlay old) false)
            | _, _ => None
            end
       else if createFails then None
       else Some (Sound.mk (getFilePath w track)
                    (default false shouldPlayOverride
                     || (Props.isPlaying (props p) && negb (Props.isPaused (props p))))
                    true)).
Proof.
  simpl. unfold initializeSound.
  destruct (sound p) as [old|]; destruct unloadError as [err|];
    destruct (notReady _); by destruct createFails.
Qed.

(** X14: [initializeSound] never loads a track that is not fully
    downloaded, and loads from the path of the track.  A sound with its
    callback attached is in [this.sound] afterwards only if the chosen
    track has a download status of at least 100, and then it was loaded
    from [getFilePath] of that track; when the track is not ready and
    the old sound was released, [this.sound] is empty; a sound with its
    callback detached is there only when [unloadAsync] threw and nothing
    was loaded, and it is the old one; props and state are untouched. *)
Theorem initializeSound_loads_downloaded (w : World.t) (unloadError : option jsstr)
    (createFails : bool) (trackOverride : option Track.t)
    (shouldPlayOverride : option bool) p :
  let track := match trackOverride with
               | Some t => Some t
               | None => Props.track (props p)
               end in
  let q := (initializeSound w unloadError createFails trackOverride
              shouldPlayOverride p).1 in
  (∀ s, sound q = Some s → Sound.listening s = true →
        createFails = false
        ∧ Sound.uri s = getFilePath w track
        ∧ ∃ t n, track = Some t ∧ Track.downloadStatus t = Some n ∧ (100 ≤ n)%Z)
  ∧ (notReady track = false → createFails = false →
     ∃ s, sound q = Some s ∧ Sound.listening s = true
          ∧ Sound.uri s = getFilePath w track)
  ∧ (notReady track = true → unloadError = None → sound q = None)
  ∧ (∀ s, sound q = Some s → Sound.listening s = false →
        notReady track = true ∧ is_Some unloadError
        ∧ ∃ old, sound p = Some old ∧ Sound.uri s = Sound.uri old)
  ∧ props q = props p ∧ state q = state p.
Proof.
  cbv zeta. rewrite initializeSound_result. cbn [sound props state].
  set (track := match trackOverride with
                | Some t => Some t
                | None => Props.track (props p)
                end).
  destruct (notReady track) eqn:Eready.
  - split; [|split; [done|split; [|split; [|done]]]].
    + intros s Hs Hl. destruct (sound p) as [old|]; [|done].
      destruct unloadError; [|done]. injection Hs as <-. done.
    + intros _ ->. by destruct (sound p).
    + intros s Hs _. destruct (sound p) as [old|]; [|done].
      destruct unloadError as [err|]; [|done]. injection Hs as <-.
      split; [done|]. split; [by eexists|]. by exists old.
  - apply notReady_false in Eready.
    destruct createFails; (split; [|split; [|split; [done|split; [|done]]]]).
    + by intros s [=].
    + by intros _ [=].
    + by intros s [=].
    + intros s [= <-] _. done.
    + intros _ _. by eexists.
    + intros s [= <-]. done.
Qed.

Lemma isDownloaded_resolved (w : World.t) (t t' : Track.t) :
  isDownloaded t w = Resolved t' →
  ∃ path, getFilePath w (Some t) = Some path
          ∧ getFilePath w (Some t') = Some path
          ∧ Track.downloadStatus t'
            = if FileSystem.present path w then Some 100%Z else None.
Proof.
  unfold isDownloaded, getFilePath. simpl. intros [= <-]. by eexists.
Qed.

(** X15: the player loads a track exactly when [isDownloaded] found it:
    for the track [isDownloaded] resolves with, a call of [initializeSound]
    on a working audio engine leaves a sound exactly when the device
    reports that the track's path exists, as it does when the file of the
    track is on the disk, and the sound is loaded from that path. *)
Theorem initializeSound_after_isDownloaded (w : World.t) (t t' : Track.t)
    (shouldPlayOverride : option bool) p :
  isDownloaded t w = Resolved t' →
  ∃ path,
    getFilePath w (Some t) = Some path
    ∧ (is_Some (sound (initializeSound w None false (Some t')
                         shouldPlayOverride p).1)
       ↔ FileSystem.present path w = true)
    ∧ (path ∈ World.uris w →
       is_Some (sound (initializeSound w None false (Some t')
                         shouldPlayOverride p).1))
    ∧ ∀ s, sound (initializeSound w None false (Some t') shouldPlayOverride p).1
             = Some s →
           Sound.uri s = Some path ∧ Sound.listening s = true.
Proof.
  intros (path & Hpath & Hpath' & Hstatus)%isDownloaded_resolved.
  exists path. split; [done|].
  pose proof (initializeSound_result w None false (Some t') shouldPlayOverride p)
    as Hres.
  cbv zeta in Hres. rewrite Hres. clear Hres. cbn [sound]. rewrite Hpath'.
  replace (match sound p with Some _ | _ => None end) with (@None Sound.t)
    by by destruct (sound p).
  unfold notReady. rewrite Hstatus.
  pose proof (present_file path w) as Hfile.
  destruct (FileSystem.present path w); simpl.
  - split; [split; [done|by eexists]|]. split; [by eexists|]. by intros s [= <-].
  - split; [split; [by intros [? [=]] | done]|].
    split; [by intros ?%Hfile|]. by intros s [=].
Qed.

(** X16: the controls agree with the loader: a track shown as playable
    ([canPlay]) is one [initializeSound] loads, a track shown as
    downloading is one it does not load, no track is both, and a track
    [isDownloaded] resolved with is playable exactly when it is loaded and
    is never shown as downloading. *)
Theorem canPlay_ready (track : Track.t) :
  (canPlay track = true → notReady (Some track) = false)
  ∧ (downloading track = true → notReady (Some track) = true)
  ∧ canPlay track && downloading track = false
  ∧ ∀ (w : World.t) (t : Track.t),
      isDownloaded t w = Resolved track →
      canPlay track = negb (notReady (Some track)) ∧ downloading track = false.
Proof.
  unfold canPlay, downloading, notReady.
  split; [|split; [|split]].
  - intros Hc%bool_decide_eq_true. by rewrite Hc.
  - destruct (Track.downloadStatus track) as [n|]; [|done].
    intros [_ Hlt]%andb_true_iff. rewrite Hlt. apply orb_true_r.
  - case_bool_decide as Hc; [|done]. by rewrite Hc.
  - intros w t (path & _ & _ & Hs)%isDownloaded_resolved. rewrite Hs.
    by destruct (FileSystem.present path w).
Qed.
End PlayerProperties.

Lemma seeking_holds_position_witness :
  Player.State.position
    (Player.state
       (Player.handleAudioUpdate
          (Player.Status.mk true 30000%Z 60%Z false true 1%Z true 1%Z false None)
          (Player.seekEnd 5%Z
             (Player.updates [] (Player.seeking 7%Z player))).1).1)
  = 500%Z.
Proof.
  exact (proj2 (proj2 (proj2 (proj2 (proj2 (seeking_holds_position 7%Z [] player))))
           5%Z (Player.Status.mk true 30000%Z 60%Z false true 1%Z true 1%Z false None))
           eq_refl).
Defined.

Lemma initializeSound_loads_downloaded_witness :
  ∃ s, Player.sound (Player.initializeSound device None false None None player).1
         = Some s
       ∧ Player.Sound.listening s = true
       ∧ Player.Sound.uri s = getFilePath device (Some song_downloaded).
Proof.
  exact (proj1 (proj2 (initializeSound_loads_downloaded
           device None false None None player)) eq_refl eq_refl).
Defined.

Lemma initializeSound_after_isDownloaded_witness :
  ∃ path,
    getFilePath device (Some song) = Some path
    ∧ (is_Some (Player.sound
                  (Player.initializeSound device None false (Some song_downloaded)
                     None player).1)
       ↔ FileSystem.present path device = true)
    ∧ (path ∈ World.uris device →
       is_Some (Player.sound
                  (Player.initializeSound device None false (Some song_downloaded)
                     None player).1))
    ∧ ∀ s, Player.sound
             (Player.initializeSound device None false (Some song_downloaded)
                None player).1 = Some s →
           Player.Sound.uri s = Some path ∧ Player.Sound.listening s = true.
Proof.
  exact (initializeSound_after_isDownloaded device song song_downloaded None player
           eq_refl).
Defined.

Lemma canPlay_ready_witness :
  Player.canPlay song_downloaded = negb (Player.notReady (Some song_downloaded))
  ∧ Player.downloading song_downloaded = false.
Proof.
  exact (proj2 (proj2 (proj2 (canPlay_ready song_downloaded)))
           device song eq_refl).
Defined.

(** ** The name the player shows *)

Section TrackName.
Implicit Types (props : Player.Props.t) (track : Track.t).

Lemma findIndex_spec {A} (f : A → bool) (l : list A) :
  (Player.findIndex f l = -1 ∧ ∀ a, a ∈ l → f a = false)%Z
  ∨ ∃ i a, Player.findIndex f l = Z.of_nat i
           ∧ l !! i = Some a ∧ f a = true
           ∧ ∀ j b, (j < i)%nat → l !! j = Some b → f b = false.
Proof.
  induction l as [|x l IH]; simpl.
  - left. split; [done|]. by intros a ?%elem_of_nil.
  - destruct (f x) eqn:Ex.
    + right. exists 0%nat, x. repeat split; try done. intros j b Hj. lia.
    + destruct IH as [[Hi Hall]|(i & a & Hi & Ha & Hfa & Hfirst)]; rewrite Hi.
      * left. split; [done|]. intros a [->|?]%elem_of_cons; auto.
      * right. exists (S i), a. rewrite (proj2 (Z.ltb_ge _ _)) by lia.
        repeat split; try done; [lia|].
        intros [|j] b Hj; simpl; [by intros [= <-]|]. apply Hfirst. lia.
Qed.

(** X17: the number in the name the player shows is the position, counted
    from 1, of the first track of the playlist whose id is the playing id;
    it is 0 when the playlist holds no such track. *)
Theorem trackName_numbering props track :
  Player.Props.track props = Some track →
  ∃ n : nat,
    Player.trackName props
      = Some (Player.templateInt (Z.of_nat n) ++ js ". "
              ++ Player.templateUndefined (Track.name track))
    ∧ (n ≤ length (Playlist.tracks (Playlist.data (Player.Props.playlist props))))%nat
    ∧ (n = 0%nat
       ↔ ∀ t, t ∈ Playlist.tracks (Playlist.data (Player.Props.playlist props)) →
              Some (Track.id t) ≠ Player.Props.id props)
    ∧ ∀ i, n = S i →
           ∃ t, Playlist.tracks (Playlist.data (Player.Props.playlist props)) !! i = Some t
                ∧ Some (Track.id t) = Player.Props.id props
                ∧ ∀ j t', (j < i)%nat →
                    Playlist.tracks (Playlist.data (Player.Props.playlist props)) !! j
                      = Some t' →
                    Some (Track.id t') ≠ Player.Props.id props.
Proof.
  intros Htrack. unfold Player.trackName. rewrite Htrack.
  set (tracks := Playlist.tracks (Playlist.data (Player.Props.playlist props))).
  destruct (findIndex_spec
              (λ t, bool_decide (Some (Track.id t) = Player.Props.id props)) tracks)
    as [[Hi Hall]|(i & t & Hi & Ht & Hft & Hfirst)]; rewrite Hi.
  - exists 0%nat. split; [done|]. split; [lia|]. split; [|done].
    split; [|done]. intros _ t Hin. by eapply bool_decide_eq_false_1, Hall.
  - exists (S i). split; [by rewrite Nat2Z.inj_succ|].
    apply bool_decide_eq_true in Hft.
    split; [apply lookup_lt_Some in Ht; lia|]. split.
    + split; [done|]. intros Hno. exfalso. apply (Hno t); [|done].
      by eapply list_elem_of_lookup_2.
    + intros i' [= <-]. exists t. split; [done|]. split; [done|].
      intros j t' Hj Hlook. by eapply bool_decide_eq_false_1, (Hfirst j).
Qed.

Lemma trackName_numbering_witness :
  ∃ n : nat,
    Player.trackName (Player.props player)
      = Some (Player.templateInt (Z.of_nat n) ++ js ". " ++ js "My Song.mp3")
    ∧ (n ≤ 1)%nat.
Proof.
  destruct (trackName_numbering (Player.props player) song_downloaded eq_refl)
    as (n & Hname & Hle & _).
  exists n. split; [exact Hname | exact Hle].
Defined.
End TrackName.

(** ** More on listings and headers *)

Section ListingOrder.
Implicit Types (entries : list Entry.t).

Lemma newSet_foldl_prefix {A} `{EqDecision A} (l acc : list A) :
  acc `prefix_of` foldl (λ s x, if bool_decide (x ∈ s) then s else s ++ [x]) acc l.
Proof.
  revert acc. induction l as [|a l IH]; intros acc; simpl; [done|].
  case_bool_decide; [apply IH|]. etrans; [|apply IH]. by apply prefix_app_r.
Qed.

(** X18: users are listed in the order of their first entry: the users of
    a listing stay, in place, at the front of the users of any longer
    listing that starts with it. *)
Theorem getModifiedUsersFromEntries_prefix entries more :
  getModifiedUsersFromEntries entries
    `prefix_of` getModifiedUsersFromEntries (entries ++ more).
Proof.
  unfold getModifiedUsersFromEntries, newSet. rewrite fmap_app, foldl_app.
  destruct (newSet_foldl_prefix (getModifiedBy <$> more)
              (foldl (λ s x, if bool_decide (x ∈ s) then s else s ++ [x]) []
                 (getModifiedBy <$> entries))) as [k ->].
  rewrite filter_app. by apply prefix_app_r.
Qed.
End ListingOrder.

Section HeaderMore.
Implicit Types (s remote : jsstr) (c : N).

Lemma hexValue_hexDigit d : d < 16 → hexValue (hexDigit d) = d.
Proof.
  intros Hd. unfold hexValue, hexDigit.
  destruct (N.ltb_spec d 10).
  - destruct (N.ltb_spec (48 + d) 58); lia.
  - destruct (N.ltb_spec (87 + d) 58); lia.
Qed.

Lemma decodeUnit_UnicodeEscape c rest :
  c < 65536 → decodeUnit (UnicodeEscape c ++ rest) = Some (c, rest).
Proof.
  intros Hc. unfold UnicodeEscape. simpl.
  change 4096 with (16 * (16 * 16)). change 256 with (16 * 16).
  rewrite <- !N.Div0.div_div.
  rewrite !hexValue_hexDigit by (apply N.mod_lt; lia).
  f_equal. f_equal.
  pose proof (N.div_mod' c 16) as H1.
  pose proof (N.div_mod' (c / 16) 16) as H2.
  pose proof (N.div_mod' (c / 16 / 16) 16) as H3.
  assert (c / 16 / 16 / 16 < 16) as H4.
  { rewrite !N.Div0.div_div. apply N.Div0.div_lt_upper_bound. lia. }
  rewrite (N.mod_small _ _ H4). lia.
Qed.

(** [decodeUnit] undoes [headerUnit], whatever follows. *)
Lemma decodeUnit_headerUnit c rest :
  c < 65536 → decodeUnit (headerUnit c ++ rest) = Some (c, rest).
Proof.
  intros Hc. unfold headerUnit. destruct (N.leb_spec 127 c) as [Hhigh|Hlow].
  { by apply decodeUnit_UnicodeEscape. }
  unfold quoteUnit. repeat (case_decide; [by subst c|]).
  destruct (_ || _); [by apply decodeUnit_UnicodeEscape|].
  simpl. by rewrite decide_False.
Qed.

Lemma headerUnit_not_nil c : headerUnit c ≠ [].
Proof.
  unfold headerUnit, quoteUnit. destruct (127 <=? c); [done|].
  repeat (case_decide; [done|]). by destruct (_ || _).
Qed.

Lemma bind_headerUnit_inj s1 s2 :
  wellFormed s1 = true → wellFormed s2 = true →
  s1 ≫= headerUnit = s2 ≫= headerUnit → s1 = s2.
Proof.
  revert s2. induction s1 as [|c1 s1 IH]; intros [|c2 s2] H1 H2; rewrite ?bind_cons.
  - done.
  - intros Heq. symmetry in Heq. apply app_eq_nil in Heq as [Heq _].
    by apply headerUnit_not_nil in Heq.
  - intros Heq. apply app_eq_nil in Heq as [Heq _].
    by apply headerUnit_not_nil in Heq.
  - apply wellFormed_cons in H1 as [Hc1 H1]. apply wellFormed_cons in H2 as [Hc2 H2].
    intros Heq. apply (f_equal decodeUnit) in Heq.
    rewrite !decodeUnit_headerUnit in Heq by done. injection Heq as -> Heq.
    f_equal. by apply IH.
Qed.

Lemma plainAscii_units s : plainAscii s = true → s ≫= headerUnit = s.
Proof.
  unfold plainAscii. induction s as [|c s IH]; [done|]. cbn [forallb].
  rewrite !andb_true_iff, !negb_true_iff. intros [[[[H1 H2] H3] H4] Hs].
  apply N.leb_le in H1. apply N.ltb_lt in H2.
  apply N.eqb_neq in H3. apply N.eqb_neq in H4.
  rewrite bind_cons, (IH Hs). unfold headerUnit, quoteUnit.
  destruct (N.leb_spec 127 c); [lia|].
  repeat (case_decide; [lia|]).
  unfold isLeadingSurrogate, isTrailingSurrogate.
  destruct (N.ltb_spec c 32); [lia|].
  destruct (N.leb_spec 55296 c); [lia|]. destruct (N.leb_spec 56320 c); [lia|]. done.
Qed.

Lemma plainAscii_wellFormed s : plainAscii s = true → wellFormed s = true.
Proof.
  unfold plainAscii, wellFormed. rewrite !forallb_forall. intros H c Hc.
  specialize (H c Hc). rewrite !andb_true_iff in H. destruct H as [[[_ H] _] _].
  apply N.ltb_lt in H. apply N.ltb_lt. lia.
Qed.

(** X19: a remote path of printable ASCII without quote and backslash is
    sent as it is, between the quotes of the JSON text. *)
Theorem createDownloader_header_plain {C} (w : World.t) (local remote : jsstr)
    (state : AppState.t) (progress : C) :
  plainAscii remote = true →
  FileSystem.Dropbox_API_Arg (createDownloader w local remote state progress)
  = js "{" ++ [34] ++ js "path" ++ [34] ++ js ":" ++ [34] ++ remote ++ [34] ++ js "}".
Proof.
  intros Hp. simpl. rewrite cleanHeader_units by by apply plainAscii_wellFormed.
  by rewrite plainAscii_units.
Qed.

Lemma createDownloader_header_plain_witness :
  FileSystem.Dropbox_API_Arg
    (createDownloader device (js "abc_3.mp3") (js "/tapes/My Song.mp3") state_tape ())
  = js "{" ++ [34] ++ js "path" ++ [34] ++ js ":" ++ [34]
    ++ js "/tapes/My Song.mp3" ++ [34] ++ js "}".
Proof.
  exact (createDownloader_header_plain device (js "abc_3.mp3")
           (js "/tapes/My Song.mp3") state_tape () eq_refl).
Defined.

(** X20: the header determines the remote path: two downloaders with the
    same [Dropbox-API-Arg] header were created for the same remote path. *)
Theorem createDownloader_header_injective {C} (w1 w2 : World.t)
    (local1 local2 remote1 remote2 : jsstr) (state1 state2 : AppState.t)
    (progress1 progress2 : C) :
  wellFormed remote1 = true → wellFormed remote2 = true →
  FileSystem.Dropbox_API_Arg (createDownloader w1 local1 remote1 state1 progress1)
    = FileSystem.Dropbox_API_Arg (createDownloader w2 local2 remote2 state2 progress2) →
  remote1 = remote2.
Proof.
  intros H1 H2. simpl. rewrite !cleanHeader_units by done.
  intros Heq. repeat apply app_inv_head in Heq.
  apply app_inv_tail in Heq. by apply bind_headerUnit_inj.
Qed.

Lemma createDownloader_header_injective_witness :
  remote_E_acute = js "/" ++ [201].
Proof.
  exact (createDownloader_header_injective device device (js "a.mp3") (js "b.mp3")
           remote_E_acute (js "/" ++ [201]) state_tape state_empty () ()
           eq_refl eq_refl eq_refl).
Defined.
End HeaderMore.
